(** * PicEditor AI: version history, selection workflow and comparison slider

    A shallow embedding of the state logic of the React front-end:
    - [App]               (gallery store, selection workflow),
    - [Editor]            (single-image editor, version viewing, revert),
    - [MultiImageEditor]  (multi-image blend),
    - [ImageComparison]   (before/after slider).

    React state is modelled by explicit state records; the handlers become
    functions from the state of the render in which they were created to the
    next state.  What the handlers read from the browser ([Math.random],
    [Date.now], [window.confirm], the remote image service) is an explicit
    oracle, and what they show to the user ([alert]) is an explicit log. *)

From Stdlib Require Import ZArith QArith Qpower Lqa SpecFloat.
From stdpp Require Import base list strings pretty.

Local Open Scope Z_scope.
Local Open Scope nat_scope.

(** ** JavaScript strings

    A JavaScript string is a finite sequence of UTF-16 code units; [===] on
    strings is equality of these sequences. *)

Abbreviation JsString := (list N).

(** The code units of an ASCII literal of the source. *)
Fixpoint js (s : string) : JsString :=
  match s with
  | EmptyString => []
  | String a s' => Ascii.N_of_ascii a :: js s'
  end.

Arguments js : simpl never.

(** [!s] for a string [s]: the empty string is the only falsy string. *)
Definition falsy (s : JsString) : bool :=
  match s with [] => true | _ :: _ => false end.

(** [a || b] on strings. *)
Definition js_or (a b : JsString) : JsString :=
  if falsy a then b else a.

(** ECMAScript WhiteSpace and LineTerminator code points, the characters that
    [String.prototype.trim] strips. *)
Definition is_white_space (c : N) : bool :=
  match c with
  | 9%N | 10%N | 11%N | 12%N | 13%N | 32%N | 160%N
  | 5760%N | 8232%N | 8233%N | 8239%N | 8287%N | 12288%N | 65279%N => true
  | _ => (8192 <=? c)%N && (c <=? 8202)%N
  end.

Fixpoint trimStart (s : JsString) : JsString :=
  match s with
  | [] => []
  | c :: s' => if is_white_space c then trimStart s' else s
  end.

Definition trimEnd (s : JsString) : JsString := rev (trimStart (rev s)).

(** [s.trim()] *)
Definition trim (s : JsString) : JsString := trimEnd (trimStart s).

(** ** JavaScript [Set<string>]

    A [Set] keeps its elements in insertion order and never holds an element
    twice.  The representation is the list of elements in insertion order;
    [wf] is the representation invariant. *)

Module JsSet.
Abbreviation t := (list JsString).

Definition empty : t := [].
Definition has (x : JsString) (s : t) : bool := bool_decide (x ∈ s).
Definition add (x : JsString) (s : t) : t := if has x s then s else s ++ [x].
Definition delete (x : JsString) (s : t) : t := filter (λ y, y ≠ x) s.
Definition size (s : t) : nat := length s.
(** [new Set(s)] *)
Definition copy (s : t) : t := s.
Definition wf (s : t) : Prop := NoDup s.
End JsSet.

(** ** Data model ([types.ts]) *)

Module EditedVersion.
Record t := mk {
  id : JsString;
  url : JsString;
  prompt : JsString;
  timestamp : Z;
}.
End EditedVersion.

Module ImageItem.
Record t := mk {
  id : JsString;
  originalUrl : JsString;
  currentUrl : JsString;
  name : JsString;
  versions : list EditedVersion.t;
  isProcessing : bool;
}.
End ImageItem.

(** ** The browser as seen by the handlers

    [randomIds n] is the result of the [n]-th evaluation of
    [Math.random().toString(36).substr(2, 9)], [clock n] the result of the
    [n]-th reading of the wall clock ([Date.now()], [new Date()]).  Nothing
    is assumed about either: ids may repeat and the clock may stand still.
    [alerts] are the messages shown with [alert], oldest first. *)

Record World := mkWorld {
  randomIds : nat → JsString;
  randomCalls : nat;
  clock : nat → Z;
  clockCalls : nat;
  toLocaleTimeString : Z → JsString;
  alerts : list JsString;
}.

Definition M (A : Type) : Type := World → A * World.

Global Instance M_ret : MRet M := λ A x w, (x, w).
Global Instance M_bind : MBind M := λ A B f m w, let '(x, w') := m w in f x w'.

Definition math_random_id : M JsString := λ w,
  (randomIds w (randomCalls w),
   mkWorld (randomIds w) (S (randomCalls w)) (clock w) (clockCalls w)
           (toLocaleTimeString w) (alerts w)).

Definition date_now : M Z := λ w,
  (clock w (clockCalls w),
   mkWorld (randomIds w) (randomCalls w) (clock w) (S (clockCalls w))
           (toLocaleTimeString w) (alerts w)).

Definition locale_time_string (d : Z) : M JsString := λ w,
  (toLocaleTimeString w d, w).

Definition alert (msg : JsString) : M unit := λ w,
  (tt,
   mkWorld (randomIds w) (randomCalls w) (clock w) (clockCalls w)
           (toLocaleTimeString w) (alerts w ++ [msg])).

(** [prev.map(f)] for a callback [f] that reads the browser. *)
Fixpoint array_map {A B} (f : A → M B) (l : list A) : M (list B) :=
  match l with
  | [] => mret []
  | x :: l' => y ← f x; ys ← array_map f l'; mret (y :: ys)
  end.

(** ** [App]: the collection store *)

Definition newVersion (newUrl prompt : JsString) : M EditedVersion.t :=
  vid ← math_random_id;
  ts ← date_now;
  mret (EditedVersion.mk vid newUrl prompt ts).

(** The callback of [prev.map] in [handleUpdateImage]. *)
Definition updateOne (id newUrl prompt : JsString) (img : ImageItem.t)
  : M ImageItem.t :=
  if decide (ImageItem.id img = id) then
    v ← newVersion newUrl prompt;
    mret (ImageItem.mk (ImageItem.id img) (ImageItem.originalUrl img) newUrl
            (ImageItem.name img) (ImageItem.versions img ++ [v])
            (ImageItem.isProcessing img))
  else mret img.

(** The state updater passed to [setImages] by [handleUpdateImage]. *)
Definition handleUpdateImage (id newUrl prompt : JsString)
    (prev : list ImageItem.t) : M (list ImageItem.t) :=
  array_map (updateOne id newUrl prompt) prev.

(** The body of [reader.onload] in [handleFileUpload], for one file.
    [result] is [e.target?.result]; [None] stands for [null]. *)
Definition onFileLoad (fileName : JsString) (result : option JsString)
    (prev : list ImageItem.t) : M (list ImageItem.t) :=
  match result with
  | Some r =>
      if falsy r then mret prev
      else
        newId ← math_random_id;
        mret (prev ++ [ImageItem.mk newId r r fileName [] false])
  | None => mret prev
  end.

Record AppState := mkApp {
  images : list ImageItem.t;
  editingId : option JsString;
  isSelectionMode : bool;
  selectedIds : JsSet.t;
  showMultiEditor : bool;
}.

Definition initialApp : AppState := mkApp [] None false JsSet.empty false.

Definition setImages (f : list ImageItem.t → M (list ImageItem.t))
    (st : AppState) : M AppState :=
  imgs ← f (images st);
  mret (mkApp imgs (editingId st) (isSelectionMode st) (selectedIds st)
          (showMultiEditor st)).

Definition setSelectedIds (s : JsSet.t) (st : AppState) : AppState :=
  mkApp (images st) (editingId st) (isSelectionMode st) s (showMultiEditor st).

Definition setIsSelectionMode (b : bool) (st : AppState) : AppState :=
  mkApp (images st) (editingId st) b (selectedIds st) (showMultiEditor st).

Definition setShowMultiEditor (b : bool) (st : AppState) : AppState :=
  mkApp (images st) (editingId st) (isSelectionMode st) (selectedIds st) b.

Definition setEditingId (i : option JsString) (st : AppState) : AppState :=
  mkApp (images st) i (isSelectionMode st) (selectedIds st) (showMultiEditor st).

Definition handleAddGeneratedImage (newUrl prompt : JsString) (st : AppState)
  : M AppState :=
  newId ← math_random_id;
  d ← date_now;
  t ← locale_time_string d;
  let newImage :=
    ImageItem.mk newId newUrl newUrl (js "Blend Result " ++ t) [] false in
  st1 ← setImages (λ prev, mret (newImage :: prev)) st;
  mret (setSelectedIds JsSet.empty
          (setIsSelectionMode false (setShowMultiEditor false st1))).

Definition removeImage (id : JsString) (st : AppState) : AppState :=
  let st1 :=
    mkApp (filter (λ img, ImageItem.id img ≠ id) (images st)) (editingId st)
      (isSelectionMode st) (selectedIds st) (showMultiEditor st) in
  if JsSet.has id (selectedIds st) then
    let newSet := JsSet.copy (selectedIds st) in
    let newSet := JsSet.delete id newSet in
    setSelectedIds newSet st1
  else st1.

Definition toggleSelectionMode (st : AppState) : AppState :=
  if isSelectionMode st then
    setSelectedIds JsSet.empty (setIsSelectionMode false st)
  else setIsSelectionMode true st.

Definition limitNotice : JsString := js "You can select up to 4 images max.".

Definition toggleSelection (id : JsString) (st : AppState) : M AppState :=
  let newSet := JsSet.copy (selectedIds st) in
  if JsSet.has id newSet then
    mret (setSelectedIds (JsSet.delete id newSet) st)
  else if 4 <=? JsSet.size newSet then
    _ ← alert limitNotice;
    mret st
  else mret (setSelectedIds (JsSet.add id newSet) st).

Definition handleStartMultiEdit (st : AppState) : AppState :=
  setShowMultiEditor true st.

(** [images.find((img) => img.id === editingId)]; no image has the id
    [null]. *)
Definition activeImage (st : AppState) : option ImageItem.t :=
  match editingId st with
  | Some eid => List.find (λ img, bool_decide (ImageItem.id img = eid)) (images st)
  | None => None
  end.

(** The images handed to [MultiImageEditor] as [selectedImages]. *)
Definition selectedImagesList (imgs : list ImageItem.t) (sel : JsSet.t)
  : list ImageItem.t :=
  filter (λ img, JsSet.has (ImageItem.id img) sel) imgs.

(** [handleClick] of the gallery card of the image with id [id]. *)
Definition handleClick (id : JsString) (st : AppState) : M AppState :=
  if isSelectionMode st then toggleSelection id st
  else mret (setEditingId (Some id) st).

(** What can happen to the [App] component. *)
Inductive Event :=
| FileLoaded (fileName : JsString) (result : option JsString)
| UpdateImage (id newUrl prompt : JsString)
| SaveNewImage (newUrl prompt : JsString)
| RemoveImage (id : JsString)
| ToggleSelectionMode
| CardClick (id : JsString)
| StartMultiEdit
| EditorBack
| MultiEditorBack.

Definition step (ev : Event) (st : AppState) : M AppState :=
  match ev with
  | FileLoaded fileName result => setImages (onFileLoad fileName result) st
  | UpdateImage id newUrl prompt =>
      setImages (handleUpdateImage id newUrl prompt) st
  | SaveNewImage newUrl prompt => handleAddGeneratedImage newUrl prompt st
  | RemoveImage id => mret (removeImage id st)
  | ToggleSelectionMode => mret (toggleSelectionMode st)
  | CardClick id => handleClick id st
  | StartMultiEdit => mret (handleStartMultiEdit st)
  | EditorBack => mret (setEditingId None st)
  | MultiEditorBack => mret (setShowMultiEditor false st)
  end.

(** A gallery card exists only for an image of the collection; every other
    event is allowed at any time, with any arguments. *)
Definition enabled (st : AppState) (ev : Event) : Prop :=
  match ev with
  | CardClick id => ∃ img, img ∈ images st ∧ ImageItem.id img = id
  | _ => True
  end.

Inductive reachable : World → AppState → Prop :=
| reachable_init w : reachable w initialApp
| reachable_step w st ev st' w' :
    reachable w st → enabled st ev → step ev st w = (st', w') →
    reachable w' st'.

(** The stated invariant of an image: its current content is the content of
    its latest version, or its original content when it has no version. *)
Definition latestContent (img : ImageItem.t) : JsString :=
  match last (ImageItem.versions img) with
  | Some v => EditedVersion.url v
  | None => ImageItem.originalUrl img
  end.

Definition current_is_latest (img : ImageItem.t) : Prop :=
  ImageItem.currentUrl img = latestContent img.

(** ** [Editor]: the single-image editor *)

Module Editor.

Record EditRequestParams := mkParams {
  imageBase64 : JsString;
  prompt : JsString;
  preserveFaces : bool;
}.

Record State := mkState {
  st_prompt : JsString;
  isProcessing : bool;
  error : option JsString;
  st_preserveFaces : bool;
  showOriginal : bool;
  viewingVersionIndex : option nat;
}.

Definition initialState : State := mkState [] false None true false None.

(** What a handler does, in the order in which it does it: calls of the
    state setters, of the remote edit service, and of the [onUpdateImage]
    prop. *)
Inductive Effect :=
| SetPrompt (p : JsString)
| SetIsProcessing (b : bool)
| SetError (e : option JsString)
| SetViewingVersionIndex (i : option nat)
| EditImageWithGemini (params : EditRequestParams)
| OnUpdateImage (id newUrl prompt : JsString).

(** [activeUrl]; [None] is the [TypeError] of reading [.url] of
    [undefined], when the index is outside the version list. *)
Definition activeUrl (image : ImageItem.t) (viewing : option nat)
  : option JsString :=
  match viewing with
  | Some i => EditedVersion.url <$> ImageItem.versions image !! i
  | None => Some (ImageItem.currentUrl image)
  end.

Definition failureNotice : JsString :=
  js "Failed to generate image. Please try again.".

(** [handleGenerate], for the render in which the state is [st] and
    [activeUrl] evaluated to [active].  [service] is the outcome of
    [await editImageWithGemini(params)]: [Some url] when the promise
    resolves with [url], [None] when it rejects. *)
Definition handleGenerate (image : ImageItem.t) (st : State)
    (active : JsString) (service : EditRequestParams → option JsString)
  : list Effect :=
  if falsy (trim (st_prompt st)) then []
  else
    let sourceImage := active in
    let params := mkParams sourceImage (st_prompt st) (st_preserveFaces st) in
    [SetIsProcessing true; SetError None; EditImageWithGemini params] ++
    match service params with
    | Some newImageUrl =>
        [OnUpdateImage (ImageItem.id image) newImageUrl (st_prompt st);
         SetViewingVersionIndex None;
         SetPrompt []]
    | None => [SetError (Some failureNotice)]
    end ++
    [SetIsProcessing false].

Definition handleRevertToOriginal (image : ImageItem.t) : list Effect :=
  [OnUpdateImage (ImageItem.id image) (ImageItem.originalUrl image)
     (js "Revert to Original")].

(** The effects on the editor's own state and, through the [onUpdateImage]
    prop that [App] binds to [handleUpdateImage], on the collection. *)
Definition run_effect (e : Effect) (s : State * list ImageItem.t)
  : M (State * list ImageItem.t) :=
  let '(st, imgs) := s in
  match e with
  | SetPrompt p =>
      mret (mkState p (isProcessing st) (error st) (st_preserveFaces st)
              (showOriginal st) (viewingVersionIndex st), imgs)
  | SetIsProcessing b =>
      mret (mkState (st_prompt st) b (error st) (st_preserveFaces st)
              (showOriginal st) (viewingVersionIndex st), imgs)
  | SetError e =>
      mret (mkState (st_prompt st) (isProcessing st) e (st_preserveFaces st)
              (showOriginal st) (viewingVersionIndex st), imgs)
  | SetViewingVersionIndex i =>
      mret (mkState (st_prompt st) (isProcessing st) (error st)
              (st_preserveFaces st) (showOriginal st) i, imgs)
  | EditImageWithGemini _ => mret (st, imgs)
  | OnUpdateImage id newUrl prompt =>
      imgs' ← handleUpdateImage id newUrl prompt imgs;
      mret (st, imgs')
  end.

Fixpoint run (es : list Effect) (s : State * list ImageItem.t)
  : M (State * list ImageItem.t) :=
  match es with
  | [] => mret s
  | e :: es' => s' ← run_effect e s; run es' s'
  end.

(** The hold-to-compare button is rendered. *)
Definition compareButtonShown (image : ImageItem.t) (active : JsString)
  : bool :=
  bool_decide (active ≠ ImageItem.originalUrl image).

(** The Reset button of the history panel is rendered. *)
Definition resetButtonShown (image : ImageItem.t) : bool :=
  bool_decide (ImageItem.currentUrl image ≠ ImageItem.originalUrl image).

(** The "Original Image" row of the history panel is highlighted. *)
Definition originalRowHighlighted (image : ImageItem.t) : bool :=
  bool_decide (ImageItem.currentUrl image = ImageItem.originalUrl image).

(** The [disabled] attribute of the Generate button. *)
Definition generateDisabled (st : State) : bool :=
  isProcessing st || falsy (trim (st_prompt st)).

(** The rows of the version stack, top row first:
    [image.versions.slice().reverse().map((version, idx) => ...)], each row
    with its [originalIndex = image.versions.length - 1 - idx]. *)
Definition historyRows (image : ImageItem.t) : list (nat * EditedVersion.t) :=
  imap (λ idx version, (length (ImageItem.versions image) - 1 - idx, version))
    (reverse (ImageItem.versions image)).

(** [isActive] of a row. *)
Definition isActive (active : JsString) (version : EditedVersion.t) : bool :=
  bool_decide (active = EditedVersion.url version).

(** [onClick] of a row of the version stack. *)
Definition clickRow (row : nat * EditedVersion.t) : list Effect :=
  [SetViewingVersionIndex (Some row.1)].

(** The requests that reach the edit service. *)
Definition requestsSent (es : list Effect) : list EditRequestParams :=
  omap (λ e, match e with EditImageWithGemini p => Some p | _ => None end) es.

End Editor.

(** ** [MultiImageEditor]: the multi-image blend *)

Module MultiImageEditor.

Inductive Effect :=
| WindowConfirm (question : JsString)
| SetIsProcessing (b : bool)
| SetError (e : option JsString)
| SetGeneratedImage (g : option JsString)
| GenerateMultiImageTransform (imagesPayload : list JsString)
    (prompt : JsString).

(** [selectedImages[0]]; [None] is [undefined]. *)
Definition referenceImage (selectedImages : list ImageItem.t)
  : option ImageItem.t := head selectedImages.

(** [selectedImages.slice(1)] *)
Definition targetImages (selectedImages : list ImageItem.t)
  : list ImageItem.t := drop 1 selectedImages.

Definition confirmQuestion : JsString :=
  js "Generate without a prompt? The model will infer the style transfer automatically.".

Definition defaultPrompt : JsString :=
  js "Apply the style of the first image to the second image.".

Definition failureNotice : JsString :=
  js "Failed to generate image. Please try again.".

(** [handleGenerate] for the render in which the prompt state is [prompt].
    [confirm] is the user's answer to [window.confirm]; [service] is the
    outcome of [await generateMultiImageTransform(...)], [None] when the
    promise rejects. *)
Definition handleGenerate (selectedImages : list ImageItem.t)
    (prompt : JsString) (confirm : JsString → bool)
    (service : list JsString → JsString → option JsString)
  : list Effect :=
  let asked :=
    if falsy (trim prompt) then [WindowConfirm confirmQuestion] else [] in
  if falsy (trim prompt) && negb (confirm confirmQuestion) then asked
  else
    let imagesPayload := ImageItem.currentUrl <$> selectedImages in
    let effective := js_or prompt defaultPrompt in
    asked ++
    [SetIsProcessing true; SetError None; SetGeneratedImage None;
     GenerateMultiImageTransform imagesPayload effective] ++
    match service imagesPayload effective with
    | Some resultUrl => [SetGeneratedImage (Some resultUrl)]
    | None => [SetError (Some failureNotice)]
    end ++
    [SetIsProcessing false].

(** The prompts that reach the blend service. *)
Definition promptsSent (es : list Effect) : list JsString :=
  omap (λ e, match e with
             | GenerateMultiImageTransform _ p => Some p
             | _ => None
             end) es.

Record State := mkState {
  st_prompt : JsString;
  isProcessing : bool;
  error : option JsString;
  generatedImage : option JsString;
}.

Definition initialState : State := mkState [] false None None.

(** The effects on the component's own state. *)
Definition run_effect (e : Effect) (st : State) : State :=
  match e with
  | WindowConfirm _ => st
  | SetIsProcessing b =>
      mkState (st_prompt st) b (error st) (generatedImage st)
  | SetError e =>
      mkState (st_prompt st) (isProcessing st) e (generatedImage st)
  | SetGeneratedImage g =>
      mkState (st_prompt st) (isProcessing st) (error st) g
  | GenerateMultiImageTransform _ _ => st
  end.

Definition run (es : list Effect) (st : State) : State :=
  foldl (λ s e, run_effect e s) st es.

(** A list length inside a template literal: its decimal digits. *)
Definition number_to_string (n : nat) : JsString := js (pretty n).

(** What [handleSave] does: nothing, a [TypeError] (reading [.name] of an
    undefined reference image), or one call of the [onSaveNewImage] prop. *)
Inductive SaveOutcome :=
| NotSaved
| SaveTypeError
| OnSaveNewImage (newUrl prompt : JsString).

Definition handleSave (selectedImages : list ImageItem.t) (st : State)
  : SaveOutcome :=
  match generatedImage st with
  | Some g =>
      if falsy g then NotSaved
      else
        match referenceImage selectedImages with
        | Some reference =>
            OnSaveNewImage g
              (js "Reference: " ++ ImageItem.name reference ++ js " + " ++
               number_to_string (length (targetImages selectedImages)) ++
               js " targets")
        | None => SaveTypeError
        end
  | None => NotSaved
  end.

End MultiImageEditor.

(** ** JavaScript numbers

    A JavaScript number is an IEEE 754 binary64 value.  The Standard
    Library's [SpecFloat] describes the format and its correctly rounded
    operations (round to nearest, ties to even); [prec] and [emax] select
    binary64. *)

Module JsNumber.

Local Open Scope Z_scope.

Definition prec : Z := 53.
Definition emax : Z := 1024.

(** [spec_float] also holds mantissa/exponent pairs that no binary64 number
    has; [valid] tells the numbers apart. *)
Definition valid (x : spec_float) : Prop := valid_binary prec emax x = true.

Definition is_finite (x : spec_float) : bool :=
  match x with
  | S754_zero _ | S754_finite _ _ _ => true
  | S754_infinity _ | S754_nan => false
  end.

Definition is_nan (x : spec_float) : bool :=
  match x with S754_nan => true | _ => false end.

(** A number that is neither [NaN] nor an infinity. *)
Definition finite (x : spec_float) : Prop := valid x ∧ is_finite x = true.

(** An integer literal of the source. *)
Definition of_Z (z : Z) : spec_float := binary_normalize prec emax z 0 false.

(** [a - b], [a / b], [a * b], [a < b], [a > b] and [a <= b]. *)
Definition js_sub (a b : spec_float) : spec_float := SFsub prec emax a b.
Definition js_div (a b : spec_float) : spec_float := SFdiv prec emax a b.
Definition js_mul (a b : spec_float) : spec_float := SFmul prec emax a b.
Definition js_lt (a b : spec_float) : bool := SFltb a b.
Definition js_gt (a b : spec_float) : bool := SFltb b a.
Definition js_le (a b : spec_float) : bool := SFleb a b.

(** [Math.min(a, b)] and [Math.max(a, b)]: [NaN] if an argument is [NaN];
    [-0] counts as smaller than [+0]. *)
Definition math_min (a b : spec_float) : spec_float :=
  if is_nan a || is_nan b then S754_nan
  else
    match a, b with
    | S754_zero false, S754_zero true => S754_zero true
    | _, _ => if js_lt b a then b else a
    end.

Definition math_max (a b : spec_float) : spec_float :=
  if is_nan a || is_nan b then S754_nan
  else
    match a, b with
    | S754_zero true, S754_zero false => S754_zero false
    | _, _ => if js_lt a b then b else a
    end.

(** The rational that a finite number denotes: [m × 2^e], with its sign. *)
Definition bpow (e : Z) : Q := (2 ^ e)%Q.
Definition val (m e : Z) : Q := (inject_Z m * bpow e)%Q.

Definition value (x : spec_float) : Q :=
  match x with
  | S754_finite s m e => if s then (- val (Zpos m) e)%Q else val (Zpos m) e
  | _ => 0%Q
  end.

(** The number with sign [s] and mantissa [m ≤ 2^53] at exponent [e]: a
    mantissa of 54 bits is renormalised, an exponent above the largest one
    gives an infinity. *)
Definition pack (s : bool) (m e : Z) : spec_float :=
  match m with
  | Z0 => S754_zero s
  | Zpos p =>
      if m <? 2 ^ 53 then
        if e <=? 971 then S754_finite s p e else S754_infinity s
      else
        if e + 1 <=? 971 then S754_finite s (2 ^ 52) (e + 1)
        else S754_infinity s
  | Zneg _ => S754_nan
  end.

End JsNumber.

(** ** [ImageComparison]: the before/after slider *)

Module ImageComparison.
Import JsNumber.

Local Open Scope Z_scope.

(** The part of [getBoundingClientRect()] that [handleDrag] reads. *)
Record DOMRect := mkRect {
  left : spec_float;
  width : spec_float;
}.

Definition initialSliderPos : spec_float := of_Z 50.

(** [handleDrag]: the next value of [sliderPos].  [container] is
    [containerRef.current], [None] when the ref is not attached. *)
Definition handleDrag (container : option DOMRect) (clientX : spec_float)
    (sliderPos : spec_float) : spec_float :=
  match container with
  | None => sliderPos
  | Some rect =>
      let x :=
        math_max (of_Z 0) (math_min (js_sub clientX (left rect)) (width rect)) in
      let percent := js_mul (js_div x (width rect)) (of_Z 100) in
      percent
  end.

(** The boundary percentage in the words of the specification:
    clamp((pointerX − containerLeft) / containerWidth, 0, 1) × 100, every
    operation being the one of JavaScript numbers. *)
Definition clamp (v lo hi : spec_float) : spec_float :=
  if js_le v lo then lo else if js_le hi v then hi else v.

Definition spec_boundary (pointerX containerLeft containerWidth : spec_float)
  : spec_float :=
  js_mul (clamp (js_div (js_sub pointerX containerLeft) containerWidth)
            (of_Z 0) (of_Z 1))
    (of_Z 100).

(** A number within [0,100]; [NaN] is not. *)
Definition within_0_100 (n : spec_float) : Prop :=
  js_le (of_Z 0) n = true ∧ js_le n (of_Z 100) = true.

(** The component state: [sliderPos], [width] and [isDragging]. *)
Record State := mkState {
  sliderPos : spec_float;
  st_width : spec_float;
  isDragging : bool;
}.

Definition initialState : State := mkState initialSliderPos (of_Z 0) false.

(** What happens to the component.  A touch event stands with the
    [clientX] of its first touch; [WindowMove] and [WindowEnd] are the
    [mousemove]/[touchmove] and [mouseup]/[touchend] events of the window;
    [Resize] carries the content widths of the entries of one
    [ResizeObserver] callback, [ImageLoad] the width of the loaded image. *)
Inductive Event :=
| PointerDown (clientX : spec_float)
| WindowMove (clientX : spec_float)
| WindowEnd
| Resize (entries : list spec_float)
| ImageLoad (imageWidth : spec_float).

(** One event, [container] being [containerRef.current] at that time.  The
    window listeners exist only while [isDragging] is set. *)
Definition step (container : option DOMRect) (ev : Event) (st : State)
  : State :=
  match ev with
  | PointerDown clientX =>
      mkState (handleDrag container clientX (sliderPos st)) (st_width st) true
  | WindowMove clientX =>
      if isDragging st then
        mkState (handleDrag container clientX (sliderPos st)) (st_width st)
          (isDragging st)
      else st
  | WindowEnd =>
      if isDragging st then mkState (sliderPos st) (st_width st) false else st
  | Resize entries =>
      foldl (λ s w, mkState (sliderPos s) w (isDragging s)) st entries
  | ImageLoad w => mkState (sliderPos st) w (isDragging st)
  end.

Definition run (evs : list (option DOMRect * Event)) (st : State) : State :=
  foldl (λ s ce, step ce.1 ce.2 s) st evs.

(** The "Original" and "Edited" labels are faded out ([opacity-0]):
    [sliderPos < 15] and [sliderPos > 85]. *)
Definition originalLabelHidden (st : State) : bool :=
  js_lt (sliderPos st) (of_Z 15).
Definition editedLabelHidden (st : State) : bool :=
  js_gt (sliderPos st) (of_Z 85).



End ImageComparison.

(** ** [App]: what is rendered, and what the rendered view lets happen *)

(** [editingId] as a condition: [null] and the empty string are falsy. *)
Definition truthy_id (i : option JsString) : bool :=
  match i with
  | Some s => negb (falsy s)
  | None => false
  end.

Inductive View :=
| MultiEditorView (selectedImages : list ImageItem.t)
| EditorView (image : ImageItem.t)
| GalleryView.

(** The three [return]s of [App]. *)
Definition render (st : AppState) : View :=
  if showMultiEditor st then
    MultiEditorView (selectedImagesList (images st) (selectedIds st))
  else
    match activeImage st with
    | Some image => if truthy_id (editingId st) then EditorView image
                    else GalleryView
    | None => GalleryView
    end.

(** [images.findIndex(i => selectedIds.has(i.id))]; [None] is [-1]. *)
Fixpoint findIndexSelected (imgs : list ImageItem.t) (sel : JsSet.t)
  : option nat :=
  match imgs with
  | [] => None
  | img :: rest =>
      if JsSet.has (ImageItem.id img) sel then Some 0
      else S <$> findIndexSelected rest sel
  end.

(** The "Reference" badge on the gallery card at position [index]. *)
Definition referenceBadgeShown (st : AppState) (index : nat)
    (img : ImageItem.t) : bool :=
  isSelectionMode st && JsSet.has (ImageItem.id img) (selectedIds st) &&
  bool_decide (Some index = findIndexSelected (images st) (selectedIds st)).

(** The "Blend n Images" button and the "Select Images" button. *)
Definition blendButtonShown (st : AppState) : bool :=
  isSelectionMode st && (2 <=? JsSet.size (selectedIds st)).

Definition selectionModeButtonShown (st : AppState) : bool :=
  1 <? length (images st).

(** An event as the rendered view allows it.  The gallery events need the
    gallery and the element that triggers them; the callbacks of an editor
    need that editor, except [onUpdateImage], which an edit request still in
    flight calls when it resolves, whatever is rendered by then; a file can
    finish loading at any time. *)
Definition ui_enabled (st : AppState) (ev : Event) : Prop :=
  match ev with
  | FileLoaded _ _ => True
  | UpdateImage _ _ _ => True
  | SaveNewImage _ _ => showMultiEditor st = true
  | RemoveImage id =>
      render st = GalleryView ∧ isSelectionMode st = false ∧
      ∃ img, img ∈ images st ∧ ImageItem.id img = id
  | ToggleSelectionMode =>
      render st = GalleryView ∧ selectionModeButtonShown st = true
  | CardClick id =>
      render st = GalleryView ∧ ∃ img, img ∈ images st ∧ ImageItem.id img = id
  | StartMultiEdit =>
      render st = GalleryView ∧ images st ≠ [] ∧ blendButtonShown st = true
  | EditorBack => ∃ image, render st = EditorView image
  | MultiEditorBack => showMultiEditor st = true
  end.

Inductive ui_reachable : World → AppState → Prop :=
| ui_reachable_init w : ui_reachable w initialApp
| ui_reachable_step w st ev st' w' :
    ui_reachable w st → ui_enabled st ev → step ev st w = (st', w') →
    ui_reachable w' st'.

(** ** What the handlers are checked against *)

(** How [handleUpdateImage id newUrl prompt] changes one image. *)
Definition updated (id newUrl prompt : JsString) (img img' : ImageItem.t)
  : Prop :=
  if decide (ImageItem.id img = id) then
    ∃ v, EditedVersion.url v = newUrl ∧ EditedVersion.prompt v = prompt ∧
         img' = ImageItem.mk (ImageItem.id img) (ImageItem.originalUrl img)
                  newUrl (ImageItem.name img) (ImageItem.versions img ++ [v])
                  (ImageItem.isProcessing img)
  else img' = img.

(** Every selected id is the id of an image of the collection. *)
Definition selection_in_collection (imgs : list ImageItem.t) (sel : JsSet.t)
  : Prop :=
  ∀ sid, sid ∈ sel → ∃ img, img ∈ imgs ∧ ImageItem.id img = sid.

Record app_invariant (st : AppState) : Prop := mkInv {
  inv_latest : Forall current_is_latest (images st);
  inv_size : JsSet.size (selectedIds st) ≤ 4;
  inv_wf : JsSet.wf (selectedIds st);
  inv_selection : selection_in_collection (images st) (selectedIds st);
}.

(** Which view goes with which mode: the blend editor needs selection mode
    and two selected ids; an id being edited excludes selection mode and the
    blend editor, and names an image of the collection. *)
Record ui_invariant (st : AppState) : Prop := mkUiInv {
  ui_blend :
    showMultiEditor st = true →
    isSelectionMode st = true ∧ 2 ≤ JsSet.size (selectedIds st);
  ui_editing :
    truthy_id (editingId st) = true →
    isSelectionMode st = false ∧ showMultiEditor st = false ∧
    ∃ img, img ∈ images st ∧ Some (ImageItem.id img) = editingId st;
}.

(** A sequence of events, from the first to the last. *)
Definition run_events (evs : list Event) (s : AppState * World)
  : AppState * World :=
  foldl (λ s ev, step ev s.1 s.2) s evs.

(** Every event of the sequence is one the view rendered at that point
    allows. *)
Fixpoint ui_enabled_along (evs : list Event) (s : AppState * World) : Prop :=
  match evs with
  | [] => True
  | ev :: evs' => ui_enabled s.1 ev ∧ ui_enabled_along evs' (step ev s.1 s.2)
  end.

(** ** Sample data *)

Definition world0 : World :=
  mkWorld (λ n, js "v" ++ [48 + N.of_nat n]%N) 0
          (λ n, 1700000000000 + Z.of_nat n)%Z 0
          (λ _, js "10:15:00") [].

Definition imgA : ImageItem.t :=
  ImageItem.mk (js "img1") (js "A") (js "A") (js "a.png") [] false.

Definition imgB : ImageItem.t :=
  ImageItem.mk (js "img2") (js "P") (js "Q") (js "b.png")
    [EditedVersion.mk (js "v9") (js "Q") (js "add glow") 1699999999999%Z] false.

Definition imgC : ImageItem.t :=
  ImageItem.mk (js "img3") (js "R") (js "R") (js "c.png") [] false.

Definition imgD : ImageItem.t :=
  ImageItem.mk (js "img4") (js "S") (js "S") (js "d.png") [] false.

Definition imgE : ImageItem.t :=
  ImageItem.mk (js "img5") (js "T") (js "T") (js "e.png") [] false.

(** Five images in the gallery, four of them selected. *)
Definition fourSelected : AppState :=
  mkApp [imgA; imgB; imgC; imgD; imgE] None true
    [js "img2"; js "img1"; js "img4"; js "img3"] false.

Definition blankPrompt : Editor.State :=
  Editor.mkState [32; 9; 10; 160; 8195; 65279]%N false None true false None.

(** Two uploads, selection mode, both cards clicked (the second image
    first), and the Blend button.  With [world0] the uploaded images get the
    ids "v0" and "v1". *)
Definition blendSession : list Event :=
  [FileLoaded (js "a.png") (Some (js "A"));
   FileLoaded (js "b.png") (Some (js "P"));
   ToggleSelectionMode;
   CardClick (js "v1");
   CardClick (js "v0");
   StartMultiEdit].

(** Two uploads and a click on the first card, which opens the editor. *)
Definition editSession : list Event :=
  [FileLoaded (js "a.png") (Some (js "A"));
   FileLoaded (js "b.png") (Some (js "P"));
   CardClick (js "v0")].

(** A press inside the container, a move beyond its right edge, the
    release, and a move after the release. *)
Definition dragSession
  : list (option ImageComparison.DOMRect * ImageComparison.Event) :=
  [(Some (ImageComparison.mkRect (JsNumber.of_Z 10) (JsNumber.of_Z 200)),
    ImageComparison.PointerDown (JsNumber.of_Z 60));
   (Some (ImageComparison.mkRect (JsNumber.of_Z 10) (JsNumber.of_Z 200)),
    ImageComparison.WindowMove (JsNumber.of_Z 500));
   (None, ImageComparison.WindowEnd);
   (Some (ImageComparison.mkRect (JsNumber.of_Z 10) (JsNumber.of_Z 200)),
    ImageComparison.WindowMove (JsNumber.of_Z (-30)))].

(** An editor state with a prompt, showing the current image. *)
Definition sketchPrompt : Editor.State :=
  Editor.mkState (js " make it sketch ") false None true false None.

(** * Properties *)

(** ** The browser monad and [array_map] *)

Lemma array_map_cons {A B} (f : A → M B) x l w :
  array_map f (x :: l) w =
  ((f x w).1 :: (array_map f l (f x w).2).1, (array_map f l (f x w).2).2).
Proof.
  simpl. unfold mbind, M_bind, mret, M_ret.
  destruct (f x w) as [y w1]. simpl.
  destruct (array_map f l w1) as [ys w2]. reflexivity.
Qed.

(** ** [JsSet] *)

Lemma has_true x (s : JsSet.t) : JsSet.has x s = true ↔ x ∈ s.
Proof. unfold JsSet.has. apply bool_decide_eq_true. Qed.

Lemma has_false x (s : JsSet.t) : JsSet.has x s = false ↔ x ∉ s.
Proof. unfold JsSet.has. apply bool_decide_eq_false. Qed.

Lemma has_ext x (s s' : JsSet.t) : (x ∈ s ↔ x ∈ s') → JsSet.has x s = JsSet.has x s'.
Proof. intros H. unfold JsSet.has. apply bool_decide_ext, H. Qed.

Lemma elem_of_delete x y (s : JsSet.t) : y ∈ JsSet.delete x s ↔ y ∈ s ∧ y ≠ x.
Proof. unfold JsSet.delete. rewrite list_elem_of_filter. tauto. Qed.

Lemma elem_of_add x y (s : JsSet.t) : y ∈ JsSet.add x s ↔ y ∈ s ∨ y = x.
Proof.
  unfold JsSet.add. destruct (JsSet.has x s) eqn:Hx.
  - apply has_true in Hx. split; [tauto | intros [?| ->]; done].
  - rewrite elem_of_app, list_elem_of_singleton. tauto.
Qed.

Lemma size_delete x (s : JsSet.t) : JsSet.size (JsSet.delete x s) ≤ JsSet.size s.
Proof. apply length_filter. Qed.

Lemma size_add_fresh x (s : JsSet.t) :
  JsSet.has x s = false → JsSet.size (JsSet.add x s) = S (JsSet.size s).
Proof.
  intros Hx. unfold JsSet.add, JsSet.size. rewrite Hx, length_app. simpl. lia.
Qed.

Lemma wf_delete x (s : JsSet.t) : JsSet.wf s → JsSet.wf (JsSet.delete x s).
Proof. apply NoDup_filter. Qed.

Lemma wf_add x (s : JsSet.t) : JsSet.wf s → JsSet.wf (JsSet.add x s).
Proof.
  intros Hs. unfold JsSet.add. destruct (JsSet.has x s) eqn:Hx; [done|].
  apply has_false in Hx. unfold JsSet.wf. apply NoDup_app. split_and!; [done| |].
  - intros y Hy ->%list_elem_of_singleton. done.
  - apply NoDup_singleton.
Qed.

(** ** [handleUpdateImage], image by image *)

Lemma updateOne_updated id newUrl prompt img w :
  updated id newUrl prompt img (updateOne id newUrl prompt img w).1.
Proof.
  unfold updated, updateOne. destruct (decide _) as [Heq|Hne]; simpl.
  - eexists (EditedVersion.mk _ newUrl prompt _). split_and!; reflexivity.
  - reflexivity.
Qed.

Lemma handleUpdateImage_updated id newUrl prompt prev w :
  Forall2 (updated id newUrl prompt) prev
    (handleUpdateImage id newUrl prompt prev w).1.
Proof.
  unfold handleUpdateImage. revert w.
  induction prev as [|img prev IH]; intros w; [constructor|].
  rewrite array_map_cons. simpl.
  constructor; [apply updateOne_updated | apply IH].
Qed.

Lemma handleUpdateImage_lookup id newUrl prompt prev w i img :
  prev !! i = Some img →
  ∃ img', (handleUpdateImage id newUrl prompt prev w).1 !! i = Some img' ∧
          updated id newUrl prompt img img'.
Proof.
  intros Hi.
  destruct (Forall2_lookup_l _ _ _ _ _
              (handleUpdateImage_updated id newUrl prompt prev w) Hi)
    as (img' & Hi' & Hupd).
  eauto.
Qed.

Lemma updated_id id newUrl prompt img img' :
  updated id newUrl prompt img img' → ImageItem.id img' = ImageItem.id img.
Proof.
  unfold updated. destruct (decide _); [intros (v & _ & _ & ->) | intros ->]; done.
Qed.

Lemma latestContent_snoc i o c n vs p v :
  latestContent (ImageItem.mk i o c n (vs ++ [v]) p) = EditedVersion.url v.
Proof. unfold latestContent. simpl. by rewrite last_snoc. Qed.

Lemma updated_current_is_latest id newUrl prompt img img' :
  updated id newUrl prompt img img' →
  current_is_latest img → current_is_latest img'.
Proof.
  unfold updated. destruct (decide _); [|by intros ->].
  intros (v & Hu & _ & ->) _. unfold current_is_latest.
  rewrite latestContent_snoc. done.
Qed.

Lemma handleUpdateImage_current_is_latest id newUrl prompt prev w :
  Forall current_is_latest prev →
  Forall current_is_latest (handleUpdateImage id newUrl prompt prev w).1.
Proof.
  intros Hprev.
  pose proof (handleUpdateImage_updated id newUrl prompt prev w) as Hupd.
  induction Hupd as [|img img' l l' H1 _ IH]; [constructor|].
  apply Forall_cons in Hprev as [??].
  constructor; [by eapply updated_current_is_latest | by apply IH].
Qed.

Lemma handleUpdateImage_ids id newUrl prompt prev w :
  ImageItem.id <$> (handleUpdateImage id newUrl prompt prev w).1 =
  ImageItem.id <$> prev.
Proof.
  pose proof (handleUpdateImage_updated id newUrl prompt prev w) as Hupd.
  induction Hupd as [|img img' l l' H1 _ IH]; [done|].
  simpl. f_equal; [by eapply updated_id | done].
Qed.

(** An id that no image carries: nothing is written and the browser is not
    consulted. *)
Lemma handleUpdateImage_absent id newUrl prompt prev w :
  (∀ img, img ∈ prev → ImageItem.id img ≠ id) →
  handleUpdateImage id newUrl prompt prev w = (prev, w).
Proof.
  unfold handleUpdateImage. revert w.
  induction prev as [|img prev IH]; intros w Habs; [done|].
  rewrite array_map_cons.
  assert (updateOne id newUrl prompt img w = (img, w)) as ->.
  { unfold updateOne. destruct (decide _) as [Heq|]; [|done].
    exfalso. eapply Habs; [left|done]. }
  simpl. rewrite IH; [done|]. intros img' Hin. apply Habs. by right.
Qed.

(** ** Invariants of the [App] state *)

Lemma selection_in_collection_ids imgs imgs' sel :
  ImageItem.id <$> imgs' = ImageItem.id <$> imgs →
  selection_in_collection imgs sel → selection_in_collection imgs' sel.
Proof.
  intros Hids Hsel sid Hsid. destruct (Hsel sid Hsid) as (img & Himg & <-).
  assert (ImageItem.id img ∈ ImageItem.id <$> imgs') as Hin.
  { rewrite Hids. by apply list_elem_of_fmap_2. }
  apply list_elem_of_fmap in Hin as (img' & Heq & Hin'). eauto.
Qed.

Lemma selection_in_collection_mono imgs imgs' sel :
  imgs ⊆ imgs' →
  selection_in_collection imgs sel → selection_in_collection imgs' sel.
Proof.
  intros Hsub Hsel sid Hsid. destruct (Hsel sid Hsid) as (img & Himg & <-).
  exists img. split; [by apply Hsub | done].
Qed.

Lemma selection_in_collection_empty imgs :
  selection_in_collection imgs JsSet.empty.
Proof. intros sid Hsid. by apply elem_of_nil in Hsid. Qed.

Lemma removeImage_images id st :
  images (removeImage id st) = filter (λ img, ImageItem.id img ≠ id) (images st).
Proof. unfold removeImage. by destruct (JsSet.has id (selectedIds st)). Qed.

Lemma removeImage_selectedIds id st y :
  y ∈ selectedIds (removeImage id st) ↔ y ∈ selectedIds st ∧ y ≠ id.
Proof.
  unfold removeImage. destruct (JsSet.has id (selectedIds st)) eqn:Hid; simpl.
  - unfold JsSet.copy. apply elem_of_delete.
  - apply has_false in Hid. split; [|tauto]. intros Hy. split; [done|].
    intros ->. done.
Qed.

Lemma removeImage_selection_in_collection id st :
  selection_in_collection (images st) (selectedIds st) →
  selection_in_collection (images (removeImage id st))
    (selectedIds (removeImage id st)).
Proof.
  intros Hsel sid [Hsid Hne]%removeImage_selectedIds.
  destruct (Hsel sid Hsid) as (img & Himg & <-). exists img. split; [|done].
  rewrite removeImage_images. apply list_elem_of_filter. done.
Qed.

Lemma removeImage_invariant id st :
  app_invariant st → app_invariant (removeImage id st).
Proof.
  intros [Hl Hs Hw Hsel]. split.
  - rewrite removeImage_images. rewrite Forall_forall in Hl.
    apply Forall_forall. intros img [_ Himg]%list_elem_of_filter. by apply Hl.
  - unfold removeImage. destruct (JsSet.has id (selectedIds st)); simpl; [|done].
    unfold JsSet.copy. etrans; [apply size_delete | done].
  - unfold removeImage. destruct (JsSet.has id (selectedIds st)); simpl; [|done].
    by apply wf_delete.
  - by apply removeImage_selection_in_collection.
Qed.

(** The three ways through [toggleSelection]. *)
Lemma toggleSelection_cases id st w :
  (JsSet.has id (selectedIds st) = true ∧
   toggleSelection id st w =
     (setSelectedIds (JsSet.delete id (selectedIds st)) st, w)) ∨
  (JsSet.has id (selectedIds st) = false ∧ 4 ≤ JsSet.size (selectedIds st) ∧
   toggleSelection id st w = (st, (alert limitNotice w).2)) ∨
  (JsSet.has id (selectedIds st) = false ∧ JsSet.size (selectedIds st) < 4 ∧
   toggleSelection id st w =
     (setSelectedIds (JsSet.add id (selectedIds st)) st, w)).
Proof.
  unfold toggleSelection, JsSet.copy.
  destruct (JsSet.has id (selectedIds st)) eqn:Hhas; [by left|]. right.
  destruct (Nat.leb_spec 4 (JsSet.size (selectedIds st))) as [Hfull|Hroom].
  - left. done.
  - right. done.
Qed.

Lemma toggleSelection_invariant id st w :
  (∃ img, img ∈ images st ∧ ImageItem.id img = id) →
  app_invariant st → app_invariant (toggleSelection id st w).1.
Proof.
  intros Hid [Hl Hs Hw Hsel].
  destruct (toggleSelection_cases id st w)
    as [[Hhas ->]|[(Hhas & Hfull & ->)|(Hhas & Hroom & ->)]]; simpl.
  - split; simpl; [done | | by apply wf_delete |].
    + etrans; [apply size_delete | done].
    + intros sid [Hsid _]%elem_of_delete. by apply Hsel.
  - done.
  - split; simpl; [done | | by apply wf_add |].
    + rewrite size_add_fresh by done. lia.
    + intros sid [Hsid| ->]%elem_of_add; [by apply Hsel | done].
Qed.

Lemma onFileLoad_spec fileName result prev w :
  (onFileLoad fileName result prev w).1 = prev ∨
  ∃ r newId, result = Some r ∧ falsy r = false ∧
    (onFileLoad fileName result prev w).1 =
      prev ++ [ImageItem.mk newId r r fileName [] false].
Proof.
  unfold onFileLoad. destruct result as [r|]; [|by left].
  destruct (falsy r) eqn:Hr; [by left|]. right. by eexists r, _.
Qed.

Lemma step_invariant ev st w :
  enabled st ev → app_invariant st → app_invariant (step ev st w).1.
Proof.
  intros Hen Hinv. destruct ev; simpl in *.
  - destruct Hinv as [Hl Hs Hw Hsel]. unfold setImages.
    cbv [mbind M_bind mret M_ret].
    destruct (onFileLoad fileName result (images st) w) as [imgs w1] eqn:Hload.
    pose proof (onFileLoad_spec fileName result (images st) w) as Hspec.
    rewrite Hload in Hspec. simpl in Hspec. split; simpl; [|done|done|].
    + destruct Hspec as [->|(r & newId & _ & _ & ->)]; [done|].
      apply Forall_app. split; [done|]. by apply Forall_singleton.
    + destruct Hspec as [->|(r & newId & _ & _ & ->)]; [done|].
      eapply selection_in_collection_mono; [|done].
      intros x Hx. apply elem_of_app. by left.
  - destruct Hinv as [Hl Hs Hw Hsel]. unfold setImages.
    cbv [mbind M_bind mret M_ret].
    pose proof (handleUpdateImage_current_is_latest id newUrl prompt _ w Hl) as Hl'.
    pose proof (handleUpdateImage_ids id newUrl prompt (images st) w) as Hids.
    destruct (handleUpdateImage id newUrl prompt (images st) w) as [imgs w1].
    simpl in *. split; simpl; [done|done|done|].
    by eapply selection_in_collection_ids.
  - destruct Hinv as [Hl Hs Hw Hsel]. split; simpl.
    + constructor; [done | done].
    + unfold JsSet.size. simpl. lia.
    + apply NoDup_nil_2.
    + apply selection_in_collection_empty.
  - by apply removeImage_invariant.
  - destruct Hinv as [Hl Hs Hw Hsel]. unfold toggleSelectionMode.
    destruct (isSelectionMode st); split; simpl; try done.
    + unfold JsSet.size. simpl. lia.
    + apply NoDup_nil_2.
    + apply selection_in_collection_empty.
  - unfold handleClick. destruct (isSelectionMode st).
    + by apply toggleSelection_invariant.
    + by destruct Hinv.
  - by destruct Hinv.
  - by destruct Hinv.
  - by destruct Hinv.
Qed.

Lemma initial_invariant : app_invariant initialApp.
Proof.
  split; simpl; [constructor | unfold JsSet.size; simpl; lia | apply NoDup_nil_2 |].
  apply selection_in_collection_empty.
Qed.

Lemma reachable_invariant w st : reachable w st → app_invariant st.
Proof.
  induction 1 as [w|w st ev st' w' _ IH Hen Hstep]; [apply initial_invariant|].
  pose proof (step_invariant ev st w Hen IH) as Hinv.
  by rewrite Hstep in Hinv.
Qed.

(** ** Version history: current content and latest version (C1) *)

(** C1. [handleUpdateImage] (appendVersion) leaves every image that carries
    the id with a non-empty version list whose last element holds the
    image's current content; the invariant "current = content of the last
    version, or the original when there is no version" is preserved for
    every image of the collection and holds in every reachable state of the
    application; images added by a file upload or by
    [handleAddGeneratedImage] start with no version and
    current = original. *)
Theorem C1_current_is_latest_content
    (prev : list ImageItem.t) (id newUrl prompt : JsString) (w : World) :
  let next := (handleUpdateImage id newUrl prompt prev w).1 in
  (∀ i img, prev !! i = Some img → ImageItem.id img = id →
     ∃ img' v, next !! i = Some img' ∧
       ImageItem.id img' = id ∧
       ImageItem.versions img' ≠ [] ∧
       last (ImageItem.versions img') = Some v ∧
       ImageItem.currentUrl img' = EditedVersion.url v ∧
       ImageItem.currentUrl img' = newUrl) ∧
  (Forall current_is_latest prev → Forall current_is_latest next) ∧
  (∀ w0 st, reachable w0 st → Forall current_is_latest (images st)) ∧
  (∀ fileName r, falsy r = false →
     ∃ img, (onFileLoad fileName (Some r) prev w).1 = prev ++ [img] ∧
       ImageItem.versions img = [] ∧
       ImageItem.originalUrl img = r ∧
       ImageItem.currentUrl img = ImageItem.originalUrl img ∧
       current_is_latest img) ∧
  (∀ st genUrl label,
     ∃ img, images (handleAddGeneratedImage genUrl label st w).1
              = img :: images st ∧
       ImageItem.versions img = [] ∧
       ImageItem.originalUrl img = genUrl ∧
       ImageItem.currentUrl img = ImageItem.originalUrl img ∧
       current_is_latest img).
Proof.
  intros next. split_and!.
  - intros i img Hi Hid.
    destruct (handleUpdateImage_lookup id newUrl prompt prev w i img Hi)
      as (img' & Hi' & Hupd).
    unfold updated in Hupd. rewrite decide_True in Hupd by done.
    destruct Hupd as (v & Hurl & _ & ->). eexists _, v.
    split_and!; simpl; [done | done | | apply last_snoc | done | done].
    intros Hnil. by apply app_nil in Hnil as [_ ?].
  - apply handleUpdateImage_current_is_latest.
  - intros w0 st Hreach. by destruct (reachable_invariant w0 st Hreach).
  - intros fileName r Hr. unfold onFileLoad. rewrite Hr. by eexists.
  - intros st genUrl label. by eexists.
Qed.

Lemma C1_witness :
  Forall current_is_latest [imgA; imgB] ∧
  Forall current_is_latest
    (handleUpdateImage (js "img1") (js "B") (js "make it sketch")
       [imgA; imgB] world0).1.
Proof.
  assert (Forall current_is_latest [imgA; imgB]) as H0.
  { repeat (apply Forall_cons; split; [reflexivity|]). apply Forall_nil_2. }
  split; [exact H0|].
  apply (C1_current_is_latest_content [imgA; imgB] (js "img1") (js "B")
           (js "make it sketch") world0).
  exact H0.
Defined.

(** ** Updating an id that is not in the collection (C8) *)

(** C8. [handleUpdateImage] with an id that no image of the collection
    carries changes nothing: the collection comes back as it was (every
    image, its current content and its versions), no id or timestamp is
    drawn, and nothing is shown to the user. *)
Theorem C8_update_absent_id_is_noop
    (prev : list ImageItem.t) (id newUrl prompt : JsString) (w : World) :
  id ∉ ImageItem.id <$> prev →
  handleUpdateImage id newUrl prompt prev w = (prev, w) ∧
  alerts (handleUpdateImage id newUrl prompt prev w).2 = alerts w ∧
  (∀ st, images st = prev → step (UpdateImage id newUrl prompt) st w = (st, w)).
Proof.
  intros Habs.
  assert (handleUpdateImage id newUrl prompt prev w = (prev, w)) as Hnoop.
  { apply handleUpdateImage_absent. intros img Hin Heq. apply Habs.
    rewrite <- Heq. by apply list_elem_of_fmap_2. }
  split_and!; [done | by rewrite Hnoop |].
  intros st <-. simpl. unfold setImages. cbv [mbind M_bind mret M_ret].
  rewrite Hnoop. by destruct st.
Qed.

Lemma C8_witness :
  handleUpdateImage (js "gone") (js "B") (js "make it sketch")
    [imgA; imgB] world0 = ([imgA; imgB], world0).
Proof.
  apply (C8_update_absent_id_is_noop [imgA; imgB] (js "gone")).
  by apply (bool_decide_unpack _).
Defined.

(** ** Active content (C9) *)

(** C9. The active content is the image's current content when no version
    is being viewed, and the content of the version at index [i] when
    version [i] is being viewed.  For an image with original content [A] and
    no version, [handleUpdateImage id B "make it sketch"] followed by
    [handleUpdateImage id C "add glow"] leaves the image with current
    content [C] and with the version list [[B-entry; C-entry]], and the
    active content for viewing index 0 is [B]. *)
Theorem C9_active_content_resolution :
  (∀ image, Editor.activeUrl image None = Some (ImageItem.currentUrl image)) ∧
  (∀ image i v, ImageItem.versions image !! i = Some v →
     Editor.activeUrl image (Some i) = Some (EditedVersion.url v)) ∧
  (∀ image i, length (ImageItem.versions image) ≤ i →
     Editor.activeUrl image (Some i) = None) ∧
  (∀ prev k img id A B C w,
     prev !! k = Some img →
     ImageItem.id img = id →
     ImageItem.originalUrl img = A →
     ImageItem.versions img = [] →
     let s1 := handleUpdateImage id B (js "make it sketch") prev w in
     let s2 := handleUpdateImage id C (js "add glow") s1.1 s1.2 in
     ∃ img2 vB vC,
       s2.1 !! k = Some img2 ∧
       ImageItem.originalUrl img2 = A ∧
       ImageItem.currentUrl img2 = C ∧
       ImageItem.versions img2 = [vB; vC] ∧
       EditedVersion.url vB = B ∧
       EditedVersion.prompt vB = js "make it sketch" ∧
       EditedVersion.url vC = C ∧
       EditedVersion.prompt vC = js "add glow" ∧
       Editor.activeUrl img2 (Some 0) = Some B ∧
       Editor.activeUrl img2 None = Some C).
Proof.
  split_and!.
  - done.
  - intros image i v Hv. simpl. by rewrite Hv.
  - intros image i Hi. simpl. by rewrite lookup_ge_None_2.
  - intros prev k img id A B C w Hk Hid HA Hvs s1 s2.
    destruct (handleUpdateImage_lookup id B (js "make it sketch") prev w k img Hk)
      as (img1 & Hk1 & Hupd1).
    destruct (handleUpdateImage_lookup id C (js "add glow") s1.1 s1.2 k img1 Hk1)
      as (img2 & Hk2 & Hupd2).
    unfold updated in Hupd1. rewrite decide_True in Hupd1 by done.
    destruct Hupd1 as (vB & HuB & HpB & ->).
    unfold updated in Hupd2. rewrite decide_True in Hupd2 by done.
    destruct Hupd2 as (vC & HuC & HpC & ->).
    eexists _, vB, vC. split; [exact Hk2|]. simpl. rewrite Hvs. simpl.
    split_and!; try done. by rewrite HuB.
Qed.

Lemma C9_witness :
  ∃ img2 vB vC,
    (handleUpdateImage (js "img1") (js "C") (js "add glow")
       (handleUpdateImage (js "img1") (js "B") (js "make it sketch")
          [imgA; imgB] world0).1
       (handleUpdateImage (js "img1") (js "B") (js "make it sketch")
          [imgA; imgB] world0).2).1 !! 0 = Some img2 ∧
    ImageItem.originalUrl img2 = js "A" ∧
    ImageItem.currentUrl img2 = js "C" ∧
    ImageItem.versions img2 = [vB; vC] ∧
    EditedVersion.url vB = js "B" ∧
    EditedVersion.prompt vB = js "make it sketch" ∧
    EditedVersion.url vC = js "C" ∧
    EditedVersion.prompt vC = js "add glow" ∧
    Editor.activeUrl img2 (Some 0) = Some (js "B") ∧
    Editor.activeUrl img2 None = Some (js "C").
Proof.
  apply (proj2 (proj2 (proj2 C9_active_content_resolution))
           [imgA; imgB] 0 imgA (js "img1") (js "A") (js "B") (js "C") world0);
    reflexivity.
Defined.

(** ** Revert to original (C2) *)

(** C2, as the code has it.  Reverting the image shown in the editor sets
    its current content to its original content by way of
    [handleUpdateImage]: the earlier versions are kept and one version is
    appended whose content is the original content and whose prompt is
    "Revert to Original", so the version list is one longer than before. *)
Theorem C2_revert_appends_original_content
    (prev : list ImageItem.t) (i : nat) (img : ImageItem.t)
    (est : Editor.State) (w : World) :
  prev !! i = Some img →
  ∃ next w' img' v,
    Editor.run (Editor.handleRevertToOriginal img) (est, prev) w
      = ((est, next), w') ∧
    next !! i = Some img' ∧
    ImageItem.currentUrl img' = ImageItem.originalUrl img ∧
    ImageItem.originalUrl img' = ImageItem.originalUrl img ∧
    ImageItem.versions img' = ImageItem.versions img ++ [v] ∧
    EditedVersion.url v = ImageItem.originalUrl img ∧
    EditedVersion.prompt v = js "Revert to Original" ∧
    length (ImageItem.versions img') = S (length (ImageItem.versions img)).
Proof.
  intros Hi.
  destruct (handleUpdateImage_lookup (ImageItem.id img)
              (ImageItem.originalUrl img) (js "Revert to Original") prev w i img Hi)
    as (img' & Hi' & Hupd).
  unfold updated in Hupd. rewrite decide_True in Hupd by done.
  destruct Hupd as (v & Hu & Hp & ->).
  unfold Editor.handleRevertToOriginal, Editor.run, Editor.run_effect.
  cbv [mbind M_bind mret M_ret].
  destruct (handleUpdateImage _ _ _ prev w) as [next w'] eqn:Hrun.
  simpl in Hi'. eexists next, w', _, v.
  split_and!; [done | exact Hi' | done | done | done | done | done |].
  simpl. rewrite length_app. simpl. lia.
Qed.

Lemma C2_witness :
  ∃ next w' img' v,
    Editor.run (Editor.handleRevertToOriginal imgB)
      (Editor.initialState, [imgA; imgB]) world0
      = ((Editor.initialState, next), w') ∧
    next !! 1 = Some img' ∧
    ImageItem.currentUrl img' = ImageItem.originalUrl imgB ∧
    ImageItem.originalUrl img' = ImageItem.originalUrl imgB ∧
    ImageItem.versions img' = ImageItem.versions imgB ++ [v] ∧
    EditedVersion.url v = ImageItem.originalUrl imgB ∧
    EditedVersion.prompt v = js "Revert to Original" ∧
    length (ImageItem.versions img') = S (length (ImageItem.versions imgB)).
Proof.
  apply (C2_revert_appends_original_content [imgA; imgB] 1 imgB
           Editor.initialState world0).
  reflexivity.
Defined.

(** C2, as stated, fails: [imgB] has one version before the revert and two
    after it. *)
Lemma C2_revert_grows_version_list :
  ∃ img',
    (Editor.run (Editor.handleRevertToOriginal imgB)
       (Editor.initialState, [imgA; imgB]) world0).1.2 !! 1 = Some img' ∧
    ImageItem.currentUrl img' = ImageItem.originalUrl imgB ∧
    length (ImageItem.versions imgB) = 1 ∧
    length (ImageItem.versions img') = 2 ∧
    length (ImageItem.versions img') ≠ length (ImageItem.versions imgB).
Proof.
  eexists. split_and!; [vm_compute; reflexivity | reflexivity..| ].
  vm_compute. lia.
Qed.

(** ** Toggling the selection (C3) *)

(** C3. [toggleSelection id] removes [id] when it is selected; when [id] is
    not selected and four ids are selected already, the state stays as it is
    and the limit notice is shown; otherwise [id] is added.  The number of
    selected ids never exceeds four, in any reachable state. *)
Theorem C3_toggleSelection_bounded
    (id : JsString) (st : AppState) (w : World) :
  let sel := selectedIds st in
  let r := toggleSelection id st w in
  (JsSet.has id sel = true →
     r = (setSelectedIds (JsSet.delete id sel) st, w) ∧
     JsSet.has id (selectedIds r.1) = false ∧
     (∀ y, y ≠ id → JsSet.has y (selectedIds r.1) = JsSet.has y sel)) ∧
  (JsSet.has id sel = false → 4 ≤ JsSet.size sel →
     r.1 = st ∧ alerts r.2 = alerts w ++ [limitNotice]) ∧
  (JsSet.has id sel = false → JsSet.size sel < 4 →
     r = (setSelectedIds (JsSet.add id sel) st, w) ∧
     JsSet.has id (selectedIds r.1) = true ∧
     (∀ y, y ≠ id → JsSet.has y (selectedIds r.1) = JsSet.has y sel) ∧
     JsSet.size (selectedIds r.1) = S (JsSet.size sel)) ∧
  (JsSet.size sel ≤ 4 → JsSet.size (selectedIds r.1) ≤ 4) ∧
  (∀ w0 st0, reachable w0 st0 →
     0 ≤ JsSet.size (selectedIds st0) ∧ JsSet.size (selectedIds st0) ≤ 4).
Proof.
  intros sel r. subst sel r. split_and!.
  - intros Hhas.
    destruct (toggleSelection_cases id st w)
      as [[_ ->]|[(Hno & _)|(Hno & _)]]; [|congruence..].
    simpl. split_and!; [done | |].
    + apply has_false. rewrite elem_of_delete. tauto.
    + intros y Hy. apply has_ext. rewrite elem_of_delete. tauto.
  - intros Hhas Hfull.
    destruct (toggleSelection_cases id st w)
      as [[Hyes _]|[(_ & _ & ->)|(_ & Hroom & _)]]; [congruence| |lia].
    done.
  - intros Hhas Hroom.
    destruct (toggleSelection_cases id st w)
      as [[Hyes _]|[(_ & Hfull & _)|(_ & _ & ->)]]; [congruence|lia|].
    simpl. split_and!; [done | | |].
    + apply has_true. rewrite elem_of_add. tauto.
    + intros y Hy. apply has_ext. rewrite elem_of_add. tauto.
    + by apply size_add_fresh.
  - intros Hs.
    destruct (toggleSelection_cases id st w)
      as [[_ ->]|[(_ & _ & ->)|(Hno & Hroom & ->)]]; simpl.
    + etrans; [apply size_delete | done].
    + done.
    + rewrite size_add_fresh by done. lia.
  - intros w0 st0 Hreach. split; [lia|].
    by destruct (reachable_invariant w0 st0 Hreach).
Qed.

Lemma C3_witness :
  (toggleSelection (js "img5") fourSelected world0).1 = fourSelected ∧
  alerts (toggleSelection (js "img5") fourSelected world0).2 = [limitNotice].
Proof.
  apply (C3_toggleSelection_bounded (js "img5") fourSelected world0).
  - reflexivity.
  - vm_compute. lia.
Defined.

(** ** Removing an image (C4) *)

(** C4. [removeImage id] takes every image with that id out of the
    collection and takes [id] out of the selection; a selection that named
    only images of the collection still does so afterwards, as it does in
    every state reached from a reachable state by [removeImage]; no image
    with the removed id is handed to the blend editor; and from the
    selection img1, img3, img5, removing img3 leaves img1, img5. *)
Theorem C4_removeImage_cleans_selection (id : JsString) (st : AppState) :
  let st' := removeImage id st in
  images st' = filter (λ img, ImageItem.id img ≠ id) (images st) ∧
  (∀ img, img ∈ images st' → ImageItem.id img ≠ id) ∧
  JsSet.has id (selectedIds st') = false ∧
  (∀ y, y ∈ selectedIds st' ↔ y ∈ selectedIds st ∧ y ≠ id) ∧
  (selection_in_collection (images st) (selectedIds st) →
   selection_in_collection (images st') (selectedIds st')) ∧
  (∀ w, reachable w st →
     selection_in_collection (images st') (selectedIds st')) ∧
  (∀ img, img ∈ selectedImagesList (images st') (selectedIds st') →
     ImageItem.id img ≠ id) ∧
  (∀ imgs e m b,
     selectedIds
       (removeImage (js "img3")
          (mkApp imgs e m [js "img1"; js "img3"; js "img5"] b))
     = [js "img1"; js "img5"]).
Proof.
  intros st'. subst st'. split_and!.
  - apply removeImage_images.
  - intros img. rewrite removeImage_images, list_elem_of_filter. tauto.
  - apply has_false. rewrite removeImage_selectedIds. tauto.
  - apply removeImage_selectedIds.
  - apply removeImage_selection_in_collection.
  - intros w Hreach. apply removeImage_selection_in_collection.
    by destruct (reachable_invariant w st Hreach).
  - intros img. unfold selectedImagesList.
    rewrite list_elem_of_filter, removeImage_images, list_elem_of_filter. tauto.
  - intros imgs e m b. reflexivity.
Qed.

Lemma C4_witness :
  selection_in_collection
    (images (removeImage (js "img2")
               (mkApp [imgA; imgB] None true [js "img1"; js "img2"] false)))
    (selectedIds (removeImage (js "img2")
               (mkApp [imgA; imgB] None true [js "img1"; js "img2"] false))).
Proof.
  apply (C4_removeImage_cleans_selection (js "img2")
           (mkApp [imgA; imgB] None true [js "img1"; js "img2"] false)).
  intros sid Hsid. simpl in Hsid.
  apply elem_of_cons in Hsid as [->|Hsid].
  - exists imgA. split; [left | reflexivity].
  - apply list_elem_of_singleton in Hsid as ->.
    exists imgB. split; [right; left | reflexivity].
Defined.

(** ** Ordered selection and reference image (C6) *)

Lemma selectedImagesList_filter imgs (sel : JsSet.t) :
  selectedImagesList imgs sel = filter (λ img, ImageItem.id img ∈ sel) imgs.
Proof.
  unfold selectedImagesList. apply list_filter_iff. intros img.
  rewrite Is_true_true. apply has_true.
Qed.

Lemma head_filter_find {A} (p : A → bool) (l : list A) :
  head (filter (λ x, p x) l) = List.find p l.
Proof.
  induction l as [|x l IH]; [done|]. rewrite filter_cons. simpl.
  destruct (p x) eqn:Hp.
  - rewrite decide_True; [done|]. by apply Is_true_true.
  - rewrite decide_False; [done|]. by apply Is_true_false.
Qed.

(** C6. The images handed to the blend editor are the images of the
    collection whose id is selected, in the order of the collection; the
    reference image is the first image of the collection whose id is
    selected; both depend on which ids are selected only, not on the order
    in which they were added to the selection. *)
Theorem C6_selection_follows_gallery_order
    (imgs : list ImageItem.t) (sel : JsSet.t) :
  let l := selectedImagesList imgs sel in
  l = filter (λ img, ImageItem.id img ∈ sel) imgs ∧
  l `sublist_of` imgs ∧
  (∀ img, img ∈ l ↔ img ∈ imgs ∧ ImageItem.id img ∈ sel) ∧
  MultiImageEditor.referenceImage l =
    List.find (λ img, bool_decide (ImageItem.id img ∈ sel)) imgs ∧
  (∀ sel' : JsSet.t, (∀ x, x ∈ sel ↔ x ∈ sel') →
     selectedImagesList imgs sel' = l ∧
     MultiImageEditor.referenceImage (selectedImagesList imgs sel') =
       MultiImageEditor.referenceImage l) ∧
  (∀ a b (s : JsSet.t),
     selectedImagesList imgs (JsSet.add a (JsSet.add b s)) =
     selectedImagesList imgs (JsSet.add b (JsSet.add a s))).
Proof.
  intros l. subst l.
  assert (∀ s s' : JsSet.t, (∀ x, x ∈ s ↔ x ∈ s') →
            selectedImagesList imgs s' = selectedImagesList imgs s) as Hext.
  { intros s s' Hss. rewrite !selectedImagesList_filter.
    apply list_filter_iff. intros img. symmetry. apply Hss. }
  split_and!.
  - apply selectedImagesList_filter.
  - apply sublist_filter.
  - intros img. rewrite selectedImagesList_filter, list_elem_of_filter. tauto.
  - unfold MultiImageEditor.referenceImage, selectedImagesList.
    apply (head_filter_find (λ img, JsSet.has (ImageItem.id img) sel)).
  - intros sel' Hss. rewrite (Hext sel sel' Hss). done.
  - intros a b s. apply Hext. intros x. rewrite !elem_of_add. tauto.
Qed.

Lemma C6_witness :
  selectedImagesList [imgA; imgB; imgC] [js "img3"; js "img1"] = [imgA; imgC] ∧
  MultiImageEditor.referenceImage
    (selectedImagesList [imgA; imgB; imgC] [js "img3"; js "img1"]) =
  MultiImageEditor.referenceImage
    (selectedImagesList [imgA; imgB; imgC] [js "img1"; js "img3"]).
Proof.
  apply (C6_selection_follows_gallery_order
           [imgA; imgB; imgC] [js "img1"; js "img3"]).
  intros x. rewrite !elem_of_cons. rewrite elem_of_nil. tauto.
Defined.

(** ** [trim] *)

Lemma trimStart_nil_iff s :
  trimStart s = [] ↔ Forall (λ c, is_white_space c = true) s.
Proof.
  induction s as [|c s IH]; simpl; [by split|].
  destruct (is_white_space c) eqn:Hc.
  - rewrite IH. split; [by constructor | by intros [_ ?]%Forall_cons].
  - split; [done | intros [? _]%Forall_cons; congruence].
Qed.

(** What [trimStart] leaves does not start with white space. *)
Lemma trimStart_head s :
  match trimStart s with
  | [] => True
  | c :: _ => is_white_space c = false
  end.
Proof.
  induction s as [|c s IH]; simpl; [done|].
  destruct (is_white_space c) eqn:Hc; [done|]. by rewrite Hc.
Qed.

Lemma trimStart_suffix s : trimStart s `suffix_of` s.
Proof.
  induction s as [|c s IH]; simpl; [done|].
  destruct (is_white_space c); [by apply suffix_cons_r | done].
Qed.

Example trim_examples :
  trim ([32; 9]%N ++ js "add  glow" ++ [10; 160; 8232]%N) = js "add  glow" ∧
  trim [32; 12288; 13]%N = [] ∧
  trim [] = [].
Proof. split_and!; reflexivity. Qed.

(** [s.trim()] is the empty string exactly for a string of white space. *)
Lemma trim_nil_iff s :
  trim s = [] ↔ Forall (λ c, is_white_space c = true) s.
Proof.
  unfold trim, trimEnd. split.
  - intros Hnil.
    assert (trimStart (rev (trimStart s)) = []) as Hrev.
    { apply (f_equal (@rev N)) in Hnil. by rewrite rev_involutive in Hnil. }
    apply trimStart_nil_iff in Hrev.
    pose proof (trimStart_head s) as Hhead.
    destruct (trimStart s) as [|c t] eqn:Hts; [by apply trimStart_nil_iff|].
    exfalso. rewrite Forall_forall in Hrev.
    specialize (Hrev c). rewrite Hhead in Hrev.
    assert (false = true) as Habs; [|done]. apply Hrev.
    apply list_elem_of_In. apply -> in_rev. by left.
  - intros Hws. apply trimStart_nil_iff in Hws. by rewrite Hws.
Qed.

Lemma falsy_trim_iff s :
  falsy (trim s) = true ↔ Forall (λ c, is_white_space c = true) s.
Proof.
  rewrite <- trim_nil_iff. destruct (trim s); simpl; split; done.
Qed.

(** ** Generate with a blank prompt (C10) *)

(** A prompt with a character that is not white space does reach the
    service: the log of [handleGenerate] starts with the processing flag
    and the request. *)
Lemma handleGenerate_dispatches image st active service :
  ¬ Forall (λ c, is_white_space c = true) (Editor.st_prompt st) →
  ∃ rest,
    Editor.handleGenerate image st active service =
      Editor.SetIsProcessing true :: Editor.SetError None ::
      Editor.EditImageWithGemini
        (Editor.mkParams active (Editor.st_prompt st) (Editor.st_preserveFaces st))
      :: rest.
Proof.
  intros Hws. unfold Editor.handleGenerate.
  destruct (falsy (trim (Editor.st_prompt st))) eqn:Hf.
  - by apply falsy_trim_iff in Hf.
  - simpl. by eexists.
Qed.

(** C10. With a prompt that is empty or made of white space only,
    [handleGenerate] of the single-image editor does nothing: no state
    setter is called (so the processing flag and the error message are not
    touched), no request is sent to the edit service, [onUpdateImage] is not
    called, and the editor state and the collection are as before. *)
Theorem C10_blank_prompt_generate_is_noop
    (image : ImageItem.t) (st : Editor.State) (active : JsString)
    (service : Editor.EditRequestParams → option JsString) :
  Forall (λ c, is_white_space c = true) (Editor.st_prompt st) →
  Editor.handleGenerate image st active service = [] ∧
  (∀ b, Editor.SetIsProcessing b ∉
          Editor.handleGenerate image st active service) ∧
  (∀ e, Editor.SetError e ∉ Editor.handleGenerate image st active service) ∧
  (∀ params, Editor.EditImageWithGemini params ∉
          Editor.handleGenerate image st active service) ∧
  (∀ id newUrl prompt, Editor.OnUpdateImage id newUrl prompt ∉
          Editor.handleGenerate image st active service) ∧
  (∀ imgs w,
     Editor.run (Editor.handleGenerate image st active service) (st, imgs) w
     = ((st, imgs), w)).
Proof.
  intros Hws. apply falsy_trim_iff in Hws.
  assert (Editor.handleGenerate image st active service = []) as ->.
  { unfold Editor.handleGenerate. by rewrite Hws. }
  split_and!; try done; intros; apply not_elem_of_nil.
Qed.

Lemma C10_witness :
  Editor.handleGenerate imgB blankPrompt (js "Q") (λ _, Some (js "R")) = [].
Proof.
  apply (C10_blank_prompt_generate_is_noop imgB blankPrompt (js "Q")
           (λ _, Some (js "R"))).
  repeat (apply Forall_cons; split; [reflexivity|]). apply Forall_nil_2.
Defined.

(** ** Effective blend prompt (C5) *)

(** What [handleGenerate] passes to the blend service: with the empty
    prompt, once the user has confirmed the dialog, the constant of the
    code; a non-empty prompt as it is (a prompt of white space only, once
    the user has confirmed); nothing when the user declines the dialog.  No
    request carries the empty prompt. *)
Lemma blend_prompt_sent
    (selectedImages : list ImageItem.t) (prompt : JsString)
    (confirm : JsString → bool)
    (service : list JsString → JsString → option JsString) :
  let log :=
    MultiImageEditor.handleGenerate selectedImages prompt confirm service in
  let sent := MultiImageEditor.promptsSent log in
  (prompt = [] → confirm MultiImageEditor.confirmQuestion = true →
     sent = [MultiImageEditor.defaultPrompt] ∧
     MultiImageEditor.GenerateMultiImageTransform
       (ImageItem.currentUrl <$> selectedImages)
       MultiImageEditor.defaultPrompt ∈ log) ∧
  (prompt ≠ [] →
     falsy (trim prompt) = false ∨
       confirm MultiImageEditor.confirmQuestion = true →
     sent = [prompt] ∧
     MultiImageEditor.GenerateMultiImageTransform
       (ImageItem.currentUrl <$> selectedImages) prompt ∈ log) ∧
  (falsy (trim prompt) = true →
     confirm MultiImageEditor.confirmQuestion = false → sent = []) ∧
  (∀ p, p ∈ sent → p ≠ []).
Proof.
  intros log sent.
  assert (MultiImageEditor.defaultPrompt ≠ []) as Hdef by done.
  assert (∀ q : JsString,
            falsy (trim prompt) && negb (confirm MultiImageEditor.confirmQuestion)
              = false →
            q = js_or prompt MultiImageEditor.defaultPrompt →
            sent = [q] ∧
            MultiImageEditor.GenerateMultiImageTransform
              (ImageItem.currentUrl <$> selectedImages) q ∈ log) as Hsent.
  { intros q Hgo ->. subst sent log. unfold MultiImageEditor.handleGenerate.
    rewrite Hgo.
    destruct (falsy (trim prompt)); simpl;
      destruct (service _ _); simpl; (split; [done|]);
      repeat first [by left | right]. }
  split_and!.
  - intros -> Hyes. apply Hsent; [|done]. by rewrite Hyes, andb_false_r.
  - intros Hne Hgo. apply Hsent.
    + destruct Hgo as [-> | ->]; [done | by rewrite andb_false_r].
    + by destruct prompt.
  - intros Hblank Hno. subst sent log. unfold MultiImageEditor.handleGenerate.
    by rewrite Hblank, Hno.
  - intros p Hp. subst sent log. unfold MultiImageEditor.handleGenerate in Hp.
    destruct (falsy (trim prompt) && negb _).
    + destruct (falsy (trim prompt)); simpl in Hp; by apply elem_of_nil in Hp.
    + assert (p = js_or prompt MultiImageEditor.defaultPrompt) as ->.
      { destruct (falsy (trim prompt)); simpl in Hp;
          destruct (service _ _); simpl in Hp;
          by apply list_elem_of_singleton in Hp. }
      unfold js_or. by destruct prompt.
Qed.

(** C5, where the code departs from it.  Three images are selected, one
    reference and two targets, the prompt is empty and the user confirms
    the dialog.  The one request that [handleGenerate] sends carries the
    three contents, and its instruction is "Apply the style of the first
    image to the second image.": it names the second image only, where the
    specification, and the help text under the prompt field ("to the
    others"), have the style of the first image applied to all the rest. *)
Lemma C5_default_prompt_names_second_image :
  let selectedImages := [imgA; imgB; imgC] in
  let log :=
    MultiImageEditor.handleGenerate selectedImages []
      (λ _, true) (λ _ _, Some (js "R")) in
  length (MultiImageEditor.targetImages selectedImages) = 2 ∧
  MultiImageEditor.GenerateMultiImageTransform
    (ImageItem.currentUrl <$> selectedImages)
    (js "Apply the style of the first image to the second image.") ∈ log ∧
  MultiImageEditor.promptsSent log
    = [js "Apply the style of the first image to the second image."].
Proof.
  split_and!; [reflexivity| |reflexivity].
  cbv [MultiImageEditor.handleGenerate falsy trim trimEnd trimStart rev
       andb negb js_or app]. simpl.
  repeat first [by left | right].
Qed.

(** ** Binary64 arithmetic

    What the operations of [SpecFloat] return, in terms of the rationals
    that the numbers denote. *)

Module JsNumberFacts.
Import JsNumber.

Local Open Scope Z_scope.

Lemma fexp_eq k : fexp prec emax k = Z.max (k - 53) (-1074).
Proof. reflexivity. Qed.

Lemma bpow_pos e : (0 < bpow e)%Q.
Proof. by apply Qpower_0_lt. Qed.

Lemma bpow_add a b : (bpow (a + b) == bpow a * bpow b)%Q.
Proof. by apply Qpower_plus. Qed.

Lemma bpow_le a b : a ≤ b → (bpow a <= bpow b)%Q.
Proof. intros. by apply Qpower_le_compat_l. Qed.

Lemma bpow_lt a b : a < b → (bpow a < bpow b)%Q.
Proof. intros. by apply Qpower_lt_compat_l. Qed.

Lemma bpow_Z n : 0 ≤ n → (bpow n == inject_Z (2 ^ n))%Q.
Proof. intros. unfold bpow. by rewrite Zpower_Qpower. Qed.

Lemma val_le m m' e : m ≤ m' → (val m e <= val m' e)%Q.
Proof.
  intros H. unfold val. apply Qmult_le_compat_r.
  - by rewrite <- Zle_Qle.
  - apply Qlt_le_weak, bpow_pos.
Qed.

Lemma val_lt m m' e : m < m' → (val m e < val m' e)%Q.
Proof.
  intros H. unfold val. apply Qmult_lt_compat_r.
  - apply bpow_pos.
  - by rewrite <- Zlt_Qlt.
Qed.

Lemma val_lt_inv m m' e : (val m e < val m' e)%Q → m < m'.
Proof.
  intros H. destruct (Z_lt_le_dec m m') as [|Hle]; [done|].
  apply (val_le _ _ e) in Hle. lra.
Qed.

Lemma val_shift m e n : 0 ≤ n → (val (m * 2 ^ n) e == val m (e + n))%Q.
Proof.
  intros Hn. unfold val. rewrite bpow_add, inject_Z_mult, (bpow_Z n Hn). ring.
Qed.

Lemma val_pow e n : 0 ≤ n → (val (2 ^ n) e == bpow (e + n))%Q.
Proof.
  intros Hn. unfold val. rewrite bpow_add, (bpow_Z n Hn). ring.
Qed.

Lemma val_0 e : (val 0 e == 0)%Q.
Proof. unfold val. ring. Qed.

Lemma val_pos m e : 0 < m → (0 < val m e)%Q.
Proof. intros H. rewrite <- (val_0 e). by apply val_lt. Qed.

(** Number of binary digits. *)
Lemma digits2_pos_bounds p :
  2 ^ (Zpos (digits2_pos p) - 1) ≤ Zpos p < 2 ^ Zpos (digits2_pos p).
Proof.
  induction p as [p IH|p IH|]; simpl digits2_pos.
  - rewrite Pos2Z.inj_succ.
    replace (Z.succ (Zpos (digits2_pos p)) - 1) with (Z.succ (Zpos (digits2_pos p) - 1)) by lia.
    rewrite !Z.pow_succ_r by lia. lia.
  - rewrite Pos2Z.inj_succ.
    replace (Z.succ (Zpos (digits2_pos p)) - 1) with (Z.succ (Zpos (digits2_pos p) - 1)) by lia.
    rewrite !Z.pow_succ_r by lia. lia.
  - simpl. lia.
Qed.

Lemma digits_bounds m :
  0 < m → 2 ^ (Zdigits2 m - 1) ≤ m < 2 ^ Zdigits2 m.
Proof. destruct m as [|p|p]; try lia. intros _. apply digits2_pos_bounds. Qed.

Lemma digits_pos m : 0 < m → 0 < Zdigits2 m.
Proof. destruct m; simpl; lia. Qed.

Lemma digits_le m k : 0 < m → m < 2 ^ k → Zdigits2 m ≤ k.
Proof.
  intros Hm Hk. pose proof (digits_bounds m Hm) as [Hlo _].
  pose proof (digits_pos m Hm).
  destruct (Z_le_gt_dec (Zdigits2 m) k) as [|Hgt]; [done|].
  assert (0 ≤ k) as Hk0.
  { destruct (Z_le_gt_dec 0 k); [done|]. rewrite Z.pow_neg_r in Hk; lia. }
  assert (2 ^ k ≤ 2 ^ (Zdigits2 m - 1)) by (apply Z.pow_le_mono_r; lia).
  lia.
Qed.

Lemma digits_gt m k : 0 ≤ k → 2 ^ k ≤ m → k < Zdigits2 m.
Proof.
  intros Hk Hm. assert (0 < m) as Hm0 by (pose proof (Z.pow_pos_nonneg 2 k); lia).
  pose proof (digits_bounds m Hm0) as [_ Hhi].
  destruct (Z_lt_le_dec k (Zdigits2 m)) as [|Hle]; [done|].
  assert (2 ^ Zdigits2 m ≤ 2 ^ k) by (apply Z.pow_le_mono_r; lia).
  lia.
Qed.


(** Shifting right is floor division. *)
Lemma shr_1_m mrs : 0 ≤ shr_m mrs → shr_m (shr_1 mrs) = shr_m mrs / 2.
Proof.
  destruct mrs as [m r s]. simpl. intros Hm.
  destruct m as [|[p|p|]|p]; simpl; try lia.
  - reflexivity.
  - apply (Z.div_unique _ _ _ 1); lia.
  - apply (Z.div_unique _ _ _ 0); lia.
  - reflexivity.
Qed.

Lemma pow2_xO p : 2 ^ Zpos p~0 = 2 ^ Zpos p * 2 ^ Zpos p.
Proof. rewrite <- Z.pow_add_r by lia. f_equal. lia. Qed.

Lemma pow2_xI p : 2 ^ Zpos p~1 = 2 * (2 ^ Zpos p * 2 ^ Zpos p).
Proof.
  rewrite <- Z.pow_add_r, <- Z.pow_succ_r by lia. f_equal. lia.
Qed.

Lemma iter_shr_1_m p mrs :
  0 ≤ shr_m mrs →
  shr_m (SpecFloat.iter_pos shr_1 p mrs) = shr_m mrs / 2 ^ Zpos p.
Proof.
  revert mrs. induction p as [p IH|p IH|]; intros mrs Hm;
    simpl SpecFloat.iter_pos.
  - assert (0 ≤ shr_m (shr_1 mrs)) as H1.
    { rewrite shr_1_m by done. apply Z.div_pos; lia. }
    assert (0 ≤ shr_m (SpecFloat.iter_pos shr_1 p (shr_1 mrs))) as H2.
    { rewrite IH by done. apply Z.div_pos; [done|]. apply Z.pow_pos_nonneg; lia. }
    assert (0 < 2 ^ Zpos p) by (apply Z.pow_pos_nonneg; lia).
    rewrite IH, IH, shr_1_m, pow2_xI by done.
    rewrite !Z.div_div by lia. done.
  - assert (0 ≤ shr_m (SpecFloat.iter_pos shr_1 p mrs)) as H2.
    { rewrite IH by done. apply Z.div_pos; [done|]. apply Z.pow_pos_nonneg; lia. }
    assert (0 < 2 ^ Zpos p) by (apply Z.pow_pos_nonneg; lia).
    rewrite IH, IH, pow2_xO by done.
    rewrite !Z.div_div by lia. done.
  - by apply shr_1_m.
Qed.

Lemma shr_record_of_loc_m m l : shr_m (shr_record_of_loc m l) = m.
Proof. by destruct l as [|[]]. Qed.

Lemma shr_spec m l e n :
  0 ≤ m → 0 ≤ n →
  ∃ mrs, shr (shr_record_of_loc m l) e n = (mrs, e + n) ∧
         shr_m mrs = m / 2 ^ n.
Proof.
  intros Hm Hn. destruct n as [|p|p]; [| |lia].
  - eexists. split; [simpl; by rewrite Z.add_0_r|].
    rewrite shr_record_of_loc_m. simpl. by rewrite Z.div_1_r.
  - eexists. split; [reflexivity|].
    rewrite iter_shr_1_m; by rewrite shr_record_of_loc_m.
Qed.

Lemma shr_nonpos mrs e n : n ≤ 0 → shr mrs e n = (mrs, e).
Proof. destruct n; [done|lia|done]. Qed.

Lemma round_nearest_even_bounds m l :
  m ≤ round_nearest_even m l ≤ m + 1.
Proof. destruct l as [|[]]; simpl; try lia. destruct (Z.even m); lia. Qed.

(** What [binary_round_aux] returns: the mantissa [mx] is cut down to the
    exponent [e1] the format prescribes, giving [m1]; rounding chooses [m1]
    or [m1 + 1]. *)
Lemma binary_round_aux_spec sx mx ex lx (v : Q) :
  0 ≤ mx →
  ex ≤ fexp prec emax (Zdigits2 mx + ex) →
  (val mx ex <= v)%Q → (v < val (mx + 1) ex)%Q →
  ∃ m1 e1 m2,
    -1074 ≤ e1 ∧ 0 ≤ m1 < 2 ^ 53 ∧ (m1 < 2 ^ 52 → e1 = -1074) ∧
    (val m1 e1 <= v)%Q ∧ (v < val (m1 + 1) e1)%Q ∧
    m1 ≤ m2 ≤ m1 + 1 ∧
    binary_round_aux prec emax sx mx ex lx = pack sx m2 e1.
Proof.
  intros Hmx HP Hlo Hhi.
  set (e1 := fexp prec emax (Zdigits2 mx + ex)) in *.
  set (n := e1 - ex).
  assert (0 ≤ n) as Hn by (unfold n; lia).
  destruct (shr_spec mx lx ex n Hmx Hn) as (mrs & Hshr & Hm1).
  set (m1 := mx / 2 ^ n) in *.
  set (m2 := round_nearest_even m1 (loc_of_shr_record mrs)).
  assert (0 < 2 ^ n) as Hpow by (apply Z.pow_pos_nonneg; lia).
  assert (0 ≤ m1) as Hm1pos by (apply Z.div_pos; lia).
  assert (2 ^ n * m1 ≤ mx < 2 ^ n * (m1 + 1)) as Hdiv.
  { unfold m1. pose proof (Z.mul_div_le mx (2 ^ n) Hpow).
    pose proof (Z.mul_succ_div_gt mx (2 ^ n) Hpow). lia. }
  assert (e1 = Z.max (Zdigits2 mx + ex - 53) (-1074)) as He1 by apply fexp_eq.
  assert (ex + n = e1) as Hen by (unfold n; lia).
  assert (m1 < 2 ^ 53 ∧ (m1 < 2 ^ 52 → e1 = -1074)) as [Hm1hi Hm1lo].
  { destruct (Z.eq_dec mx 0) as [->|Hne].
    - simpl in He1. split; [|lia]. unfold m1. rewrite Z.div_0_l; lia.
    - assert (0 < mx) as Hmx0 by lia.
      pose proof (digits_bounds mx Hmx0) as [Hdlo Hdhi].
      pose proof (digits_pos mx Hmx0) as Hd0.
      split.
      + destruct (Z_lt_le_dec m1 (2 ^ 53)) as [|Hge]; [done|].
        assert (2 ^ (n + 53) ≤ mx).
        { rewrite Z.pow_add_r by lia. nia. }
        assert (n + 53 < Zdigits2 mx) by (apply digits_gt; lia).
        lia.
      + intros Hlt. destruct (Z.eq_dec e1 (-1074)) as [|Hne1]; [done|].
        assert (Zdigits2 mx - 1 = n + 52) as Hd by lia.
        rewrite Hd, Z.pow_add_r in Hdlo by lia. nia. }
  exists m1, e1, m2. split_and!; try done.
  - lia.
  - rewrite <- Hen, <- val_shift by done.
    eapply Qle_trans; [|exact Hlo]. apply val_le. lia.
  - rewrite <- Hen, <- val_shift by done.
    eapply Qlt_le_trans; [exact Hhi|]. apply val_le. lia.
  - apply round_nearest_even_bounds.
  - apply round_nearest_even_bounds.
  - unfold binary_round_aux, shr_fexp. fold e1. fold n. rewrite Hshr, Hen.
    rewrite Hm1. fold m2.
    pose proof (round_nearest_even_bounds m1 (loc_of_shr_record mrs)) as Hm2.
    fold m2 in Hm2.
    destruct (Z.eq_dec m2 0) as [H0|H0].
    { rewrite H0. simpl Zdigits2. rewrite shr_nonpos by (rewrite fexp_eq; lia).
      reflexivity. }
    assert (0 < m2) as Hm2pos by lia.
    pose proof (digits_pos m2 Hm2pos) as Hd2.
    destruct (Z_lt_le_dec m2 (2 ^ 53)) as [Hlt|Hge].
    + assert (fexp prec emax (Zdigits2 m2 + e1) - e1 = 0) as ->.
      { rewrite fexp_eq. pose proof (digits_le m2 53 Hm2pos Hlt).
        destruct (Z_lt_le_dec m2 (2 ^ 52)) as [Hs|Hb].
        - assert (e1 = -1074) by (apply Hm1lo; lia). lia.
        - assert (52 < Zdigits2 m2) by (apply digits_gt; lia). lia. }
      simpl shr. cbn [shr_m]. unfold pack.
      destruct m2 as [|p|p]; try lia.
      apply Z.ltb_lt in Hlt. rewrite Hlt. reflexivity.
    + assert (m2 = 2 ^ 53) as -> by lia.
      assert (fexp prec emax (Zdigits2 (2 ^ 53) + e1) - e1 = 1) as ->.
      { rewrite fexp_eq. change (Zdigits2 (2 ^ 53)) with 54. lia. }
      reflexivity.
Qed.


(** Valid finite numbers. *)
Lemma valid_finite s m e :
  valid_binary prec emax (S754_finite s m e) = true ↔
  -1074 ≤ e ≤ 971 ∧ Zpos m < 2 ^ 53 ∧ (Zpos m < 2 ^ 52 → e = -1074).
Proof.
  simpl. unfold bounded, canonical_mantissa. rewrite andb_true_iff.
  rewrite Z.eqb_eq, Z.leb_le, fexp_eq.
  change (emax - prec) with 971.
  change (Zpos (digits2_pos m)) with (Zdigits2 (Zpos m)).
  assert (0 < Zpos m) as Hm by lia.
  pose proof (digits_pos _ Hm).
  split.
  - intros [Hc He]. split_and!; try lia.
    + pose proof (digits_bounds _ Hm) as [_ Hhi].
      eapply Z.lt_le_trans; [exact Hhi|]. apply Z.pow_le_mono_r; lia.
    + intros Hlt. pose proof (digits_le _ 52 Hm Hlt). lia.
  - intros ([He1 He2] & Hhi & Hlo). split; [|done].
    pose proof (digits_le _ 53 Hm Hhi).
    destruct (Z_lt_le_dec (Zpos m) (2 ^ 52)) as [Hs|Hb].
    + specialize (Hlo Hs). lia.
    + pose proof (digits_gt _ 52 ltac:(lia) Hb). lia.
Qed.

Lemma pack_valid s m e :
  0 ≤ m ≤ 2 ^ 53 → -1074 ≤ e → (m < 2 ^ 52 → e = -1074) →
  valid_binary prec emax (pack s m e) = true ∧ pack s m e ≠ S754_nan.
Proof.
  intros Hm He Hlo. unfold pack. destruct m as [|p|p]; [done| |lia].
  destruct (Z.ltb_spec (Zpos p) (2 ^ 53)) as [Hlt|Hge].
  - destruct (Z.leb_spec e 971); [|done]. split; [|done].
    apply valid_finite. lia.
  - destruct (Z.leb_spec (e + 1) 971); [|done]. split; [|done].
    apply valid_finite. assert (Zpos p = 2 ^ 53) as Hp by lia.
    rewrite Hp in Hlo. split_and!; lia.
Qed.

Lemma pack_sign s m e :
  0 ≤ m →
  pack s m e = S754_zero s ∨ pack s m e = S754_infinity s ∨
  ∃ p e', pack s m e = S754_finite s p e'.
Proof.
  intros Hm. unfold pack. destruct m as [|p|p]; [by left| |lia].
  destruct (_ <? _); destruct (_ <=? _); eauto.
Qed.

(** Order of valid positive numbers. *)
Lemma val_lt_lex mx ex my ey :
  0 < mx < 2 ^ 53 → 0 < my → (my < 2 ^ 52 → ey = -1074) → -1074 ≤ ex →
  ex < ey ∨ (ex = ey ∧ mx < my) →
  (val mx ex < val my ey)%Q.
Proof.
  intros Hmx Hmy Hy Hex [Hlt|[-> Hlt]]; [|by apply val_lt].
  assert (2 ^ 52 ≤ my) as Hb by lia.
  apply Qlt_le_trans with (val (2 ^ 53) ex); [apply val_lt; lia|].
  apply Qle_trans with (val (2 ^ 52) ey); [|by apply val_le].
  rewrite !val_pow by lia. apply bpow_le. lia.
Qed.


Lemma SFltb_finite_pos m e m' e' :
  SFltb (S754_finite false m e) (S754_finite false m' e') = true ↔
  e < e' ∨ (e = e' ∧ Zpos m < Zpos m').
Proof.
  unfold SFltb, SFcompare.
  change (Pos.compare_cont Eq m m') with (Pos.compare m m').
  destruct (Z.compare_spec e e'); destruct (Pos.compare_spec m m');
    split; try done; try lia; intros; by left.
Qed.

Lemma SFleb_finite_pos m e m' e' :
  SFleb (S754_finite false m e) (S754_finite false m' e') = true ↔
  e < e' ∨ (e = e' ∧ Zpos m ≤ Zpos m').
Proof.
  unfold SFleb, SFcompare.
  change (Pos.compare_cont Eq m m') with (Pos.compare m m').
  destruct (Z.compare_spec e e'); destruct (Pos.compare_spec m m');
    split; try done; try lia; intros; by left.
Qed.

(** Rounding stays below a representable bound that the exact value is
    below, and above one that it is above. *)
Lemma pack_upper m1 e1 m2 (v : Q) mb eb :
  -1074 ≤ e1 → 0 ≤ m1 < 2 ^ 53 → (m1 < 2 ^ 52 → e1 = -1074) →
  (val m1 e1 <= v)%Q → m1 ≤ m2 ≤ m1 + 1 →
  2 ^ 52 ≤ Zpos mb < 2 ^ 53 → -1074 ≤ eb ≤ 971 →
  (v < val (Zpos mb) eb)%Q →
  SFleb (pack false m2 e1) (S754_finite false mb eb) = true ∧
  (pack false m2 e1 = S754_zero false ∨
   ∃ p e, pack false m2 e1 = S754_finite false p e).
Proof.
  intros He1 Hm1 Hsub Hlo Hm2 Hmb Heb Hv.
  assert (val m1 e1 < val (Zpos mb) eb)%Q as Hlt by lra.
  assert (e1 ≤ eb) as Hle.
  { destruct (Z_le_gt_dec e1 eb) as [|Hgt]; [done|]. exfalso.
    assert (2 ^ 52 ≤ m1) as Hb by lia.
    assert (val (Zpos mb) eb < val m1 e1)%Q; [|lra].
    apply val_lt_lex; lia. }
  assert (e1 = eb → m1 < Zpos mb) as Heq.
  { intros ->. by apply val_lt_inv in Hlt. }
  unfold pack. destruct m2 as [|p|p]; [|clear Hsub|lia].
  { split; [done|by left]. }
  destruct (Z.ltb_spec (Zpos p) (2 ^ 53)) as [Hp|Hp].
  - destruct (Z.leb_spec e1 971); [|lia]. split; [|eauto].
    apply SFleb_finite_pos. lia.
  - destruct (Z.leb_spec (e1 + 1) 971); [|lia]. split; [|eauto].
    apply SFleb_finite_pos. change (Zpos (2 ^ 52)) with (2 ^ 52). lia.
Qed.

Lemma pack_lower m1 e1 m2 (v : Q) mb eb :
  -1074 ≤ e1 → 0 ≤ m1 < 2 ^ 53 → (m1 < 2 ^ 52 → e1 = -1074) →
  (v < val (m1 + 1) e1)%Q → m1 ≤ m2 ≤ m1 + 1 →
  2 ^ 52 ≤ Zpos mb < 2 ^ 53 → -1074 ≤ eb ≤ 971 →
  (val (Zpos mb) eb <= v)%Q →
  SFleb (S754_finite false mb eb) (pack false m2 e1) = true.
Proof.
  intros He1 Hm1 Hsub Hhi Hm2 Hmb Heb Hv.
  assert (val (Zpos mb) eb < val (m1 + 1) e1)%Q as Hlt by lra.
  assert (eb ≤ e1) as Hle.
  { destruct (Z_le_gt_dec eb e1) as [|Hgt]; [done|]. exfalso.
    assert (val (m1 + 1) e1 <= val (Zpos mb) eb)%Q; [|lra].
    apply Qle_trans with (val (2 ^ 53) e1); [apply val_le; lia|].
    apply Qle_trans with (val (2 ^ 52) eb); [|apply val_le; lia].
    rewrite !val_pow by lia. apply bpow_le. lia. }
  assert (e1 = eb → Zpos mb ≤ m1) as Heq.
  { intros ->. apply val_lt_inv in Hlt. lia. }
  assert (0 < m2) as Hpos by lia.
  unfold pack. destruct m2 as [|p|p]; [lia| |lia].
  destruct (Z.ltb_spec (Zpos p) (2 ^ 53)) as [Hp|Hp].
  - destruct (Z.leb_spec e1 971); [|done].
    apply SFleb_finite_pos. lia.
  - destruct (Z.leb_spec (e1 + 1) 971); [|done].
    apply SFleb_finite_pos. lia.
Qed.


(** Division. *)
Lemma div_eucl_div a b : Z.div_eucl a b = (a / b, a mod b).
Proof. unfold Z.div, Z.modulo. by destruct (Z.div_eucl a b). Qed.

Lemma SFdiv_core_spec md ed mw ew q e' loc :
  Zpos md < 2 ^ 53 →
  SFdiv_core_binary prec emax (Zpos md) ed (Zpos mw) ew = (q, e', loc) →
  0 ≤ q ∧ e' ≤ fexp prec emax (Zdigits2 q + e') ∧
  (val q e' * val (Zpos mw) ew <= val (Zpos md) ed)%Q ∧
  (val (Zpos md) ed < val (q + 1) e' * val (Zpos mw) ew)%Q.
Proof.
  intros Hmd. unfold SFdiv_core_binary.
  set (Dd := Zdigits2 (Zpos md)). set (Dw := Zdigits2 (Zpos mw)).
  set (k := Dd + ed - (Dw + ew)).
  set (e0 := Z.min (fexp prec emax k) (ed - ew)).
  set (s := ed - ew - e0).
  assert (0 ≤ s) as Hs by (unfold s, e0; lia).
  set (m' := match s with
             | 0 => Zpos md
             | Zpos _ => Z.shiftl (Zpos md) s
             | Zneg _ => 0
             end).
  assert (m' = Zpos md * 2 ^ s) as Hm'.
  { unfold m'. destruct s as [|p|p] eqn:Hsp; [lia| |lia].
    by rewrite Z.shiftl_mul_pow2. }
  rewrite div_eucl_div. intros [= <- <- <-].
  assert (0 < 2 ^ s) as Hpow by (apply Z.pow_pos_nonneg; lia).
  assert (0 ≤ m') as Hm'0 by lia.
  assert (0 < Zpos mw) as Hmw by lia.
  pose proof (Z.mul_div_le m' (Zpos mw) Hmw) as Hq1.
  pose proof (Z.mul_succ_div_gt m' (Zpos mw) Hmw) as Hq2.
  set (q := m' / Zpos mw) in *.
  assert (0 ≤ q) as Hq0 by (apply Z.div_pos; lia).
  assert (val (Zpos md) ed == val m' e0 * bpow ew)%Q as Hd.
  { rewrite Hm', val_shift by done. unfold val.
    rewrite <- Qmult_assoc, <- bpow_add.
    replace (e0 + s + ew) with ed by (unfold s; lia). reflexivity. }
  split_and!.
  - done.
  - destruct (Z_le_gt_dec e0 (-1074)) as [|Hgt]; [rewrite fexp_eq; lia|].
    assert (0 < Zpos md) as Hmd0 by lia.
    pose proof (digits_bounds _ Hmd0) as [Hdlo _]. fold Dd in Hdlo.
    pose proof (digits_bounds _ Hmw) as [_ Hwhi]. fold Dw in Hwhi.
    pose proof (digits_pos _ Hmd0) as HDd. fold Dd in HDd.
    pose proof (digits_pos _ Hmw) as HDw. fold Dw in HDw.
    pose proof (digits_le _ 53 Hmd0 Hmd) as HDd53. fold Dd in HDd53.
    assert (s = 53 + Dw - Dd) as Hs'.
    { unfold s, e0 in *. rewrite fexp_eq in *. unfold k in *. lia. }
    assert (2 ^ 52 ≤ q) as Hq52.
    { apply Z.div_le_lower_bound; [done|].
      rewrite Hm'. apply Z.le_trans with (2 ^ Dw * 2 ^ 52); [nia|].
      apply Z.le_trans with (2 ^ (Dd - 1) * 2 ^ s); [|nia].
      rewrite <- !Z.pow_add_r by lia. apply Z.pow_le_mono_r; lia. }
    pose proof (digits_gt q 52 ltac:(lia) Hq52). rewrite fexp_eq. lia.
  - rewrite Hd.
    assert (val (Zpos mw * q) e0 <= val m' e0)%Q as H by by apply val_le.
    unfold val in *. rewrite inject_Z_mult in H.
    pose proof (bpow_pos ew). nra.
  - rewrite Hd.
    assert (val m' e0 < val (Zpos mw * Z.succ q) e0)%Q as H by by apply val_lt.
    unfold val in *. rewrite inject_Z_mult in H.
    replace (q + 1) with (Z.succ q) by lia.
    pose proof (bpow_pos ew). nra.
Qed.


Lemma SFdiv_finite_spec sd md ed mw ew :
  Zpos md < 2 ^ 53 →
  ∃ m1 e1 m2 (v : Q),
    -1074 ≤ e1 ∧ 0 ≤ m1 < 2 ^ 53 ∧ (m1 < 2 ^ 52 → e1 = -1074) ∧
    (val m1 e1 <= v)%Q ∧ (v < val (m1 + 1) e1)%Q ∧
    m1 ≤ m2 ≤ m1 + 1 ∧
    (v * val (Zpos mw) ew == val (Zpos md) ed)%Q ∧
    SFdiv prec emax (S754_finite sd md ed) (S754_finite false mw ew)
      = pack sd m2 e1.
Proof.
  intros Hmd. unfold SFdiv.
  destruct (SFdiv_core_binary prec emax (Zpos md) ed (Zpos mw) ew)
    as [[q e'] loc] eqn:Hcore.
  destruct (SFdiv_core_spec _ _ _ _ _ _ _ Hmd Hcore) as (Hq & HP & Hlo & Hhi).
  assert (0 < val (Zpos mw) ew)%Q as HW by by apply val_pos.
  set (v := (val (Zpos md) ed / val (Zpos mw) ew)%Q).
  assert (val q e' <= v)%Q as Hvlo by by apply Qle_shift_div_l.
  assert (v < val (q + 1) e')%Q as Hvhi by by apply Qlt_shift_div_r.
  destruct (binary_round_aux_spec sd q e' loc v Hq HP Hvlo Hvhi)
    as (m1 & e1 & m2 & H1 & H2 & H3 & H4 & H5 & H6 & H7).
  exists m1, e1, m2, v. rewrite xorb_false_r. split_and!; try done; try lia.
  unfold v. field. lra.
Qed.

Lemma val_one : (val (2 ^ 52) (-52) == 1)%Q.
Proof. reflexivity. Qed.

Lemma val_hundred : (val 7036874417766400 (-46) == 100)%Q.
Proof. reflexivity. Qed.


(** [w / w = 1]. *)
Lemma SFdiv_self m e :
  SFdiv prec emax (S754_finite false m e) (S754_finite false m e)
  = S754_finite false (2 ^ 52) (-52).
Proof.
  unfold SFdiv, SFdiv_core_binary.
  replace (Zdigits2 (Zpos m) + e - (Zdigits2 (Zpos m) + e)) with 0 by lia.
  rewrite Z.sub_diag.
  change (Z.min (fexp prec emax 0) 0) with (-53).
  change (0 - -53) with 53.
  rewrite div_eucl_div, Z.shiftl_mul_pow2 by lia.
  rewrite Z.mul_comm, Z.div_mul, Z.mod_mul by lia.
  unfold new_location. by destruct (Z.even (Zpos m)).
Qed.

(** Multiplication by 100. *)
Lemma SFmul_hundred_spec mq eq :
  valid_binary prec emax (S754_finite false mq eq) = true →
  (val (Zpos mq) eq < 1)%Q →
  let r := SFmul prec emax (S754_finite false mq eq)
             (S754_finite false 7036874417766400 (-46)) in
  SFleb r (S754_finite false 7036874417766400 (-46)) = true ∧
  (r = S754_zero false ∨ ∃ p e, r = S754_finite false p e).
Proof.
  intros (He & Hhi & Hlo)%valid_finite Hv. simpl.
  set (mx := Zpos (mq * 7036874417766400)).
  assert (mx = Zpos mq * 7036874417766400) as Hmx by done.
  assert (2 ^ 52 ≤ mx) as Hbig by lia.
  pose proof (digits_gt mx 52 ltac:(lia) Hbig) as HD.
  assert (eq + -46 ≤ fexp prec emax (Zdigits2 mx + (eq + -46))) as HP.
  { rewrite fexp_eq. lia. }
  destruct (binary_round_aux_spec false mx (eq + -46) loc_Exact
              (val mx (eq + -46)) ltac:(lia) HP)
    as (m1 & e1 & m2 & H1 & H2 & H3 & H4 & H5 & H6 & ->).
  { apply Qle_refl. }
  { apply val_lt. lia. }
  apply (pack_upper m1 e1 m2 (val mx (eq + -46))); try done; try lia.
  assert (val mx (eq + -46) == val (Zpos mq) eq * val 7036874417766400 (-46))%Q
    as ->.
  { rewrite Hmx. unfold val. rewrite inject_Z_mult, bpow_add. ring. }
  rewrite val_hundred in *. lra.
Qed.

(** Subtraction. *)
Lemma iter_xO_pow m d : Zpos (Pos.iter xO m d) = Zpos m * 2 ^ Zpos d.
Proof.
  induction d as [|d IH] using Pos.peano_ind.
  - simpl. lia.
  - rewrite Pos.iter_succ, Pos2Z.inj_xO, IH, Pos2Z.inj_succ.
    rewrite Z.pow_succ_r by lia. lia.
Qed.

Lemma binary_round_valid sx mx ex :
  valid_binary prec emax (binary_round prec emax sx mx ex) = true ∧
  binary_round prec emax sx mx ex ≠ S754_nan.
Proof.
  unfold binary_round.
  change (Zpos (digits2_pos mx)) with (Zdigits2 (Zpos mx)).
  set (ex' := fexp prec emax (Zdigits2 (Zpos mx) + ex)).
  assert (ex' = Z.max (Zdigits2 (Zpos mx) + ex - 53) (-1074)) as Hex'
    by apply fexp_eq.
  destruct (shl_align mx ex ex') as [mz ez] eqn:Hal.
  assert (ez ≤ fexp prec emax (Zdigits2 (Zpos mz) + ez)) as HP.
  { unfold shl_align in Hal. destruct (ex' - ex) as [|d|d] eqn:Hd.
    - injection Hal as <- <-. fold ex'. lia.
    - injection Hal as <- <-. fold ex'. lia.
    - injection Hal as <- <-.
      pose proof (digits_bounds (Zpos mx) ltac:(lia)) as [Hlo _].
      pose proof (digits_pos (Zpos mx) ltac:(lia)).
      assert (2 ^ (Zdigits2 (Zpos mx) - 1 + Zpos d) ≤ Zpos (Pos.iter xO mx d)).
      { rewrite iter_xO_pow, Z.pow_add_r by lia.
        apply Z.mul_le_mono_nonneg_r; [|done].
        apply Z.lt_le_incl, Z.pow_pos_nonneg; lia. }
      pose proof (digits_gt _ (Zdigits2 (Zpos mx) - 1 + Zpos d)
                    ltac:(lia) H0).
      rewrite fexp_eq. lia. }
  destruct (binary_round_aux_spec sx (Zpos mz) ez loc_Exact
              (val (Zpos mz) ez) ltac:(lia) HP)
    as (m1 & e1 & m2 & H1 & H2 & H3 & H4 & H5 & H6 & ->).
  { apply Qle_refl. }
  { apply val_lt. lia. }
  apply pack_valid; lia.
Qed.

Lemma binary_normalize_valid m e sz :
  valid_binary prec emax (binary_normalize prec emax m e sz) = true ∧
  binary_normalize prec emax m e sz ≠ S754_nan.
Proof. destruct m; [done|apply binary_round_valid..]. Qed.


Lemma SFltb_val mx ex my ey :
  valid_binary prec emax (S754_finite false mx ex) = true →
  valid_binary prec emax (S754_finite false my ey) = true →
  SFltb (S754_finite false mx ex) (S754_finite false my ey) = true ↔
  (val (Zpos mx) ex < val (Zpos my) ey)%Q.
Proof.
  intros (Hex & Hxhi & Hxlo)%valid_finite (Hey & Hyhi & Hylo)%valid_finite.
  rewrite SFltb_finite_pos. split.
  - intros H. apply val_lt_lex; lia.
  - intros Hlt.
    destruct (Z_lt_le_dec ex ey) as [|Hge]; [by left|].
    destruct (Z.eq_dec ex ey) as [->|Hne].
    + right. split; [done|]. by apply val_lt_inv in Hlt.
    + exfalso. assert (val (Zpos my) ey < val (Zpos mx) ex)%Q; [|lra].
      apply val_lt_lex; lia.
Qed.

Lemma js_sub_finite x y :
  finite x → finite y → valid (js_sub x y) ∧ js_sub x y ≠ S754_nan.
Proof.
  intros [Hvx Hfx] [Hvy Hfy]. unfold js_sub, valid.
  destruct x as [sx|sx| |sx mx ex]; try done;
    destruct y as [sy|sy| |sy my ey]; try done.
  - by destruct sx, sy.
  - apply binary_normalize_valid.
Qed.

End JsNumberFacts.

(** ** Slider boundary (C7) *)

Module SliderFacts.
Import JsNumber JsNumberFacts ImageComparison.

Local Open Scope Z_scope.

Lemma of_Z_0 : of_Z 0 = S754_zero false.
Proof. reflexivity. Qed.

Lemma of_Z_1 : of_Z 1 = S754_finite false (2 ^ 52) (-52).
Proof. reflexivity. Qed.

Lemma of_Z_100 : of_Z 100 = S754_finite false 7036874417766400 (-46).
Proof. reflexivity. Qed.

(** The quotient that [handleDrag] multiplies by 100 is the clamped
    quotient of the specification; it is [+0], [1], or a number below 1. *)
Lemma clamped_quotient d mw ew :
  valid d → d ≠ S754_nan → valid (S754_finite false mw ew) →
  let w := S754_finite false mw ew in
  let q := js_div (math_max (of_Z 0) (math_min d w)) w in
  q = clamp (js_div d w) (of_Z 0) (of_Z 1) ∧
  (q = S754_zero false ∨ q = S754_finite false (2 ^ 52) (-52) ∨
   ∃ p e, q = S754_finite false p e ∧ valid q ∧ (val (Zpos p) e < 1)%Q).
Proof.
  intros Hd Hnan Hw w q. unfold q. clear q. rewrite of_Z_0, of_Z_1.
  destruct d as [s|s| |sd md ed]; [| |done|].
  - split; [by destruct s|left; by destruct s].
  - destruct s.
    + split; [reflexivity|by left].
    + change (math_max (S754_zero false) (math_min (S754_infinity false) w))
        with w.
      unfold js_div, w. rewrite !SFdiv_self.
      split; [reflexivity|right; by left].
  - pose proof Hd as (Hed & Hdhi & Hdlo)%valid_finite.
    pose proof Hw as (Hew & Hwhi & Hwlo)%valid_finite.
    destruct (SFdiv_finite_spec sd md ed mw ew Hdhi)
      as (m1 & e1 & m2 & v & He1 & Hm1 & Hsub & Hlo & Hhi & Hm2 & Hv & Hdiv).
    assert (0 < val (Zpos mw) ew)%Q as HW by by apply val_pos.
    destruct sd.
    + change (math_max (S754_zero false)
                (math_min (S754_finite true md ed) w))
        with (S754_zero false).
      change (js_div (S754_zero false) w) with (S754_zero false).
      split; [|by left].
      unfold js_div. fold w in Hdiv. rewrite Hdiv.
      destruct (pack_sign true m2 e1 ltac:(lia)) as [->|[->|(p & e & ->)]];
        reflexivity.
    + assert ((ed < ew ∨ (ed = ew ∧ Zpos md < Zpos mw)) ∨
              (ed = ew ∧ md = mw) ∨
              (ew < ed ∨ (ew = ed ∧ Zpos mw < Zpos md))) as [Hlt|[[-> ->]|Hgt]]
        by lia.
      * assert (SFltb w (S754_finite false md ed) = false) as Hwd.
        { destruct (SFltb w _) eqn:E; [|done].
          apply SFltb_finite_pos in E. lia. }
        assert (math_max (S754_zero false)
                  (math_min (S754_finite false md ed) w)
                = S754_finite false md ed) as ->.
        { unfold math_min, js_lt. simpl is_nan. cbn [orb].
          rewrite Hwd. reflexivity. }
        unfold js_div. fold w in Hdiv. rewrite Hdiv.
        assert (val (Zpos md) ed < val (Zpos mw) ew)%Q as HVW
          by (apply val_lt_lex; lia).
        assert (v < 1)%Q as Hv1 by nra.
        destruct (pack_valid false m2 e1 ltac:(lia) ltac:(lia) ltac:(lia))
          as [Hqv _].
        destruct (pack_upper m1 e1 m2 v (2 ^ 52) (-52))
          as [Hle [Hz|(p & e & Hf)]]; try done; try lia.
        { by rewrite val_one. }
        { rewrite Hz. split; [reflexivity|by left]. }
        rewrite Hf in *.
        destruct (SFleb (S754_finite false (2 ^ 52) (-52))
                    (S754_finite false p e)) eqn:Hge.
        -- apply SFleb_finite_pos in Hle, Hge.
           assert (e = -52) as -> by lia.
           assert (p = (2 ^ 52)%positive) as -> by lia.
           split; [reflexivity|right; by left].
        -- split.
           ++ unfold clamp, js_le. by rewrite Hge.
           ++ right; right. exists p, e. split_and!; [done|done|].
              apply SFleb_finite_pos in Hle.
              assert (¬ (-52 < e ∨ (-52 = e ∧ Zpos (2 ^ 52) ≤ Zpos p))) as Hn.
              { intros Hc. apply SFleb_finite_pos in Hc. congruence. }
              change (Zpos (2 ^ 52)) with (2 ^ 52) in *.
              apply valid_finite in Hqv as (? & ? & ?).
              rewrite <- val_one. apply val_lt_lex; lia.
      * assert (math_max (S754_zero false)
                  (math_min (S754_finite false mw ew) w)
                = w) as ->.
        { unfold math_min, js_lt, w. simpl is_nan. cbn [orb].
          assert (SFltb (S754_finite false mw ew) (S754_finite false mw ew)
                  = false) as ->.
          { destruct (SFltb _ _) eqn:E; [|done].
            apply SFltb_finite_pos in E. lia. }
          reflexivity. }
        unfold js_div, w. rewrite !SFdiv_self.
        split; [reflexivity|right; by left].
      * assert (SFltb w (S754_finite false md ed) = true) as Hwd
          by (apply SFltb_finite_pos; lia).
        assert (math_max (S754_zero false)
                  (math_min (S754_finite false md ed) w)
                = w) as ->.
        { unfold math_min, js_lt. simpl is_nan. cbn [orb].
          rewrite Hwd. reflexivity. }
        unfold js_div. unfold w at 1 2 4 5 6 7 8 9 10 11. rewrite !SFdiv_self.
        split; [|right; by left].
        fold w in Hdiv. rewrite Hdiv.
        assert (val (Zpos mw) ew < val (Zpos md) ed)%Q as HVW
          by (apply val_lt_lex; lia).
        assert (1 <= v)%Q as Hv1 by nra.
        pose proof (pack_lower m1 e1 m2 v (2 ^ 52) (-52)
                      He1 Hm1 Hsub Hhi Hm2 ltac:(lia) ltac:(lia)) as Hge.
        rewrite val_one in Hge. specialize (Hge Hv1).
        destruct (pack_sign false m2 e1 ltac:(lia)) as [Hp|[Hp|(p & e & Hp)]];
          rewrite Hp in *.
        -- done.
        -- reflexivity.
        -- unfold clamp, js_le. by rewrite Hge.
Qed.


Lemma percentage_within q :
  q = S754_zero false ∨ q = S754_finite false (2 ^ 52) (-52) ∨
  (∃ p e, q = S754_finite false p e ∧ valid q ∧ (val (Zpos p) e < 1)%Q) →
  within_0_100 (js_mul q (of_Z 100)).
Proof.
  intros [->|[->|(p & e & -> & Hv & Hlt)]]; [by split|by split|].
  unfold within_0_100. rewrite of_Z_0, of_Z_100. unfold js_mul, js_le.
  destruct (SFmul_hundred_spec p e Hv Hlt) as [Hle [Hr|(p' & e' & Hr)]].
  - split; [by rewrite Hr|done].
  - split; [by rewrite Hr|done].
Qed.

(** [handleDrag] for a rectangle of positive width. *)
Lemma handleDrag_spec rect clientX pos mw ew :
  finite clientX → finite (left rect) →
  width rect = S754_finite false mw ew → valid (width rect) →
  handleDrag (Some rect) clientX pos
    = spec_boundary clientX (left rect) (width rect) ∧
  within_0_100 (handleDrag (Some rect) clientX pos).
Proof.
  intros Hx Hl Hw Hwv. unfold handleDrag, spec_boundary. rewrite Hw in *.
  destruct (js_sub_finite clientX (left rect) Hx Hl) as [Hdv Hdn].
  destruct (clamped_quotient _ mw ew Hdv Hdn Hwv) as [Heq Hq].
  split; [by rewrite Heq|by apply percentage_within].
Qed.


End SliderFacts.

(** C7, for a container that is laid out.  For every finite pointer
    coordinate, left of, inside or right of the container, and every
    rectangle with a finite left edge and a finite positive width, the
    percentage that [handleDrag] stores is
    clamp((pointerX − containerLeft) / containerWidth, 0, 1) × 100, each
    operation rounded to binary64 as the code computes it, and it is within
    [0,100]. *)
Theorem C7_boundary_is_clamped_percentage
    (rect : ImageComparison.DOMRect) (clientX sliderPos : spec_float) :
  JsNumber.finite clientX →
  JsNumber.finite (ImageComparison.left rect) →
  JsNumber.finite (ImageComparison.width rect) →
  JsNumber.js_lt (JsNumber.of_Z 0) (ImageComparison.width rect) = true →
  ImageComparison.handleDrag (Some rect) clientX sliderPos
    = ImageComparison.spec_boundary clientX (ImageComparison.left rect)
        (ImageComparison.width rect) ∧
  ImageComparison.within_0_100
    (ImageComparison.handleDrag (Some rect) clientX sliderPos).
Proof.
  intros Hx Hl [Hwv Hwf] Hpos.
  destruct (ImageComparison.width rect) as [s|s| |[] mw ew] eqn:Hw; try done.
  rewrite <- Hw. eapply SliderFacts.handleDrag_spec; try done. by rewrite Hw.
Qed.

Lemma C7_witness :
  ImageComparison.handleDrag
    (Some (ImageComparison.mkRect (JsNumber.of_Z 0) (JsNumber.of_Z 3)))
    (JsNumber.of_Z 1) ImageComparison.initialSliderPos
  = ImageComparison.spec_boundary (JsNumber.of_Z 1) (JsNumber.of_Z 0)
      (JsNumber.of_Z 3) ∧
  ImageComparison.within_0_100
    (ImageComparison.handleDrag
       (Some (ImageComparison.mkRect (JsNumber.of_Z 0) (JsNumber.of_Z 3)))
       (JsNumber.of_Z 1) ImageComparison.initialSliderPos).
Proof.
  apply (C7_boundary_is_clamped_percentage
           (ImageComparison.mkRect (JsNumber.of_Z 0) (JsNumber.of_Z 3))
           (JsNumber.of_Z 1) ImageComparison.initialSliderPos);
    try (split; reflexivity); reflexivity.
Defined.

(** C7, as stated, fails.  For a container of width 0 (an element that is
    not laid out) [handleDrag] divides 0 by 0, and the percentage it stores
    is [NaN], which is not within [0,100].  And the formula is the one of
    the code only with the code's rounding: for a container of width 3 at
    the left edge 0 and the pointer at 1 the stored percentage is
    4691249611844266 × 2^-47 (33.33333333333333), not 100/3. *)
Lemma C7_zero_width_gives_NaN :
  (ImageComparison.handleDrag
     (Some (ImageComparison.mkRect (JsNumber.of_Z 0) (JsNumber.of_Z 0)))
     (JsNumber.of_Z 5) ImageComparison.initialSliderPos = S754_nan ∧
   ¬ ImageComparison.within_0_100
       (ImageComparison.handleDrag
          (Some (ImageComparison.mkRect (JsNumber.of_Z 0) (JsNumber.of_Z 0)))
          (JsNumber.of_Z 5) ImageComparison.initialSliderPos)) ∧
  (ImageComparison.handleDrag
     (Some (ImageComparison.mkRect (JsNumber.of_Z 0) (JsNumber.of_Z 3)))
     (JsNumber.of_Z 1) ImageComparison.initialSliderPos
   = S754_finite false 4691249611844266 (-47) ∧
   ¬ (JsNumber.value (S754_finite false 4691249611844266 (-47)) == 100 # 3)%Q).
Proof.
  split; (split; [reflexivity|]).
  - by intros [H _].
  - intros H. vm_compute in H. discriminate H.
Qed.

(** Pointer positions left of, inside and right of a container that spans
    the pixels 10 to 210, and a ref that is not attached. *)
Example handleDrag_examples :
  ImageComparison.handleDrag
    (Some (ImageComparison.mkRect (JsNumber.of_Z 10) (JsNumber.of_Z 200)))
    (JsNumber.of_Z (-50)) ImageComparison.initialSliderPos = JsNumber.of_Z 0 ∧
  ImageComparison.handleDrag
    (Some (ImageComparison.mkRect (JsNumber.of_Z 10) (JsNumber.of_Z 200)))
    (JsNumber.of_Z 60) ImageComparison.initialSliderPos = JsNumber.of_Z 25 ∧
  ImageComparison.handleDrag
    (Some (ImageComparison.mkRect (JsNumber.of_Z 10) (JsNumber.of_Z 200)))
    (JsNumber.of_Z 500) ImageComparison.initialSliderPos = JsNumber.of_Z 100 ∧
  ImageComparison.handleDrag None (JsNumber.of_Z 60)
    ImageComparison.initialSliderPos = JsNumber.of_Z 50.
Proof. split_and!; reflexivity. Qed.

(** * Further properties of the handlers *)

(** ** [handleUpdateImage]: what it leaves alone *)

Lemma updated_frame id newUrl prompt img img' :
  updated id newUrl prompt img img' →
  ImageItem.id img' = ImageItem.id img ∧
  ImageItem.originalUrl img' = ImageItem.originalUrl img ∧
  ImageItem.name img' = ImageItem.name img ∧
  ImageItem.isProcessing img' = ImageItem.isProcessing img ∧
  ImageItem.versions img `prefix_of` ImageItem.versions img' ∧
  (ImageItem.id img ≠ id → img' = img).
Proof.
  unfold updated. destruct (decide _) as [Heq|Hne].
  - intros (v & _ & _ & ->). simpl. split_and!; try done.
    by apply prefix_app_r.
  - intros ->. done.
Qed.

(** X1. [handleUpdateImage] keeps the collection's length and order; of
    every image it keeps the id, the original content, the name and the
    processing flag, and the versions it had stay where they were (the
    version list only grows at its end); an image with another id is not
    changed at all. *)
Theorem X1_update_keeps_identity_and_history
    (prev : list ImageItem.t) (id newUrl prompt : JsString) (w : World) :
  let next := (handleUpdateImage id newUrl prompt prev w).1 in
  length next = length prev ∧
  ∀ i img, prev !! i = Some img →
    ∃ img', next !! i = Some img' ∧
      ImageItem.id img' = ImageItem.id img ∧
      ImageItem.originalUrl img' = ImageItem.originalUrl img ∧
      ImageItem.name img' = ImageItem.name img ∧
      ImageItem.isProcessing img' = ImageItem.isProcessing img ∧
      ImageItem.versions img `prefix_of` ImageItem.versions img' ∧
      (ImageItem.id img ≠ id → img' = img).
Proof.
  intros next. split.
  - symmetry. eapply Forall2_length, handleUpdateImage_updated.
  - intros i img Hi.
    destruct (handleUpdateImage_lookup id newUrl prompt prev w i img Hi)
      as (img' & Hi' & Hupd).
    exists img'. split; [done|]. by eapply updated_frame.
Qed.

Lemma X1_witness :
  ∃ img', (handleUpdateImage (js "img1") (js "B") (js "make it sketch")
             [imgA; imgB] world0).1 !! 1 = Some img' ∧
    ImageItem.id img' = ImageItem.id imgB ∧
    ImageItem.originalUrl img' = ImageItem.originalUrl imgB ∧
    ImageItem.name img' = ImageItem.name imgB ∧
    ImageItem.isProcessing img' = ImageItem.isProcessing imgB ∧
    ImageItem.versions imgB `prefix_of` ImageItem.versions img' ∧
    (ImageItem.id imgB ≠ js "img1" → img' = imgB).
Proof.
  apply (proj2 (X1_update_keeps_identity_and_history [imgA; imgB] (js "img1")
                  (js "B") (js "make it sketch") world0) 1 imgB).
  reflexivity.
Defined.

(** ** Selection mode and the selection *)

Lemma toggleSelection_frame id st w :
  images (toggleSelection id st w).1 = images st ∧
  editingId (toggleSelection id st w).1 = editingId st ∧
  isSelectionMode (toggleSelection id st w).1 = isSelectionMode st ∧
  showMultiEditor (toggleSelection id st w).1 = showMultiEditor st.
Proof.
  destruct (toggleSelection_cases id st w)
    as [[_ ->]|[(_ & _ & ->)|(_ & _ & ->)]]; done.
Qed.

Lemma setImages_frame f st w :
  images (setImages f st w).1 = (f (images st) w).1 ∧
  editingId (setImages f st w).1 = editingId st ∧
  isSelectionMode (setImages f st w).1 = isSelectionMode st ∧
  selectedIds (setImages f st w).1 = selectedIds st ∧
  showMultiEditor (setImages f st w).1 = showMultiEditor st.
Proof.
  unfold setImages. cbv [mbind M_bind mret M_ret].
  destruct (f (images st) w) as [imgs w1]. done.
Qed.

Lemma removeImage_frame id st :
  editingId (removeImage id st) = editingId st ∧
  isSelectionMode (removeImage id st) = isSelectionMode st ∧
  showMultiEditor (removeImage id st) = showMultiEditor st.
Proof. unfold removeImage. by destruct (JsSet.has id (selectedIds st)). Qed.

Lemma step_selection_off ev st w :
  (isSelectionMode st = false → selectedIds st = []) →
  isSelectionMode (step ev st w).1 = false → selectedIds (step ev st w).1 = [].
Proof.
  intros Hinv. destruct ev; simpl.
  - destruct (setImages_frame (onFileLoad fileName result) st w)
      as (_ & _ & -> & -> & _). done.
  - destruct (setImages_frame (handleUpdateImage id newUrl prompt) st w)
      as (_ & _ & -> & -> & _). done.
  - done.
  - destruct (removeImage_frame id st) as (_ & -> & _). intros Hoff.
    specialize (Hinv Hoff). unfold removeImage. rewrite Hinv. done.
  - unfold toggleSelectionMode. destruct (isSelectionMode st) eqn:Hm; simpl; [done|].
    intros Hoff. discriminate.
  - unfold handleClick. destruct (isSelectionMode st) eqn:Hm.
    + destruct (toggleSelection_frame id st w) as (_ & _ & -> & _). congruence.
    + simpl. auto.
  - done.
  - done.
  - done.
Qed.

Lemma reachable_selection_off w st :
  reachable w st → isSelectionMode st = false → selectedIds st = [].
Proof.
  induction 1 as [w|w st ev st' w' _ IH _ Hstep]; [done|].
  pose proof (step_selection_off ev st w IH) as Hs.
  by rewrite Hstep in Hs.
Qed.

(** X2. Outside selection mode nothing is selected: in every reachable state
    with [isSelectionMode = false] the selection is empty, so the Blend
    button is not rendered and no image is handed to the blend editor. *)
Theorem X2_selection_empty_outside_selection_mode (w : World) (st : AppState) :
  reachable w st →
  isSelectionMode st = false →
  selectedIds st = [] ∧
  blendButtonShown st = false ∧
  selectedImagesList (images st) (selectedIds st) = [].
Proof.
  intros Hreach Hoff.
  pose proof (reachable_selection_off w st Hreach Hoff) as Hinv.
  split_and!; [done | |].
  - unfold blendButtonShown. by rewrite Hoff.
  - rewrite Hinv. unfold selectedImagesList.
    induction (images st) as [|img l IH]; [done|].
    rewrite filter_cons. by rewrite decide_False by (by intros ?).
Qed.

Lemma X2_witness :
  selectedIds
    (step (FileLoaded (js "a.png") (Some (js "A"))) initialApp world0).1 = [] ∧
  blendButtonShown
    (step (FileLoaded (js "a.png") (Some (js "A"))) initialApp world0).1
    = false ∧
  selectedImagesList
    (images (step (FileLoaded (js "a.png") (Some (js "A"))) initialApp world0).1)
    (selectedIds
       (step (FileLoaded (js "a.png") (Some (js "A"))) initialApp world0).1)
    = [].
Proof.
  apply (X2_selection_empty_outside_selection_mode
           (step (FileLoaded (js "a.png") (Some (js "A"))) initialApp world0).2).
  - eapply (reachable_step world0 initialApp
              (FileLoaded (js "a.png") (Some (js "A"))));
      [apply reachable_init | exact I | apply surjective_pairing].
  - reflexivity.
Defined.

(** ** The rendered view *)

Lemma ui_enabled_enabled st ev : ui_enabled st ev → enabled st ev.
Proof. destruct ev; simpl; try done. by intros [_ ?]. Qed.

Lemma ui_reachable_reachable w st : ui_reachable w st → reachable w st.
Proof.
  induction 1 as [w|w st ev st' w' _ IH Hen Hstep]; [apply reachable_init|].
  eapply reachable_step; [exact IH | by apply ui_enabled_enabled | exact Hstep].
Qed.

Lemma ui_reachable_run evs st w :
  ui_reachable w st → ui_enabled_along evs (st, w) →
  ui_reachable (run_events evs (st, w)).2 (run_events evs (st, w)).1.
Proof.
  revert st w. induction evs as [|ev evs IH]; intros st w Hreach Hen; [done|].
  destruct Hen as [Hev Hrest]. simpl in *.
  destruct (step ev st w) as [st1 w1] eqn:Hstep.
  apply IH; [|done]. by eapply ui_reachable_step.
Qed.

Lemma render_gallery st :
  render st = GalleryView → showMultiEditor st = false.
Proof. unfold render. by destruct (showMultiEditor st). Qed.

Lemma render_editor st image :
  render st = EditorView image →
  showMultiEditor st = false ∧ truthy_id (editingId st) = true ∧
  activeImage st = Some image.
Proof.
  unfold render. destruct (showMultiEditor st); [done|].
  destruct (activeImage st) as [img|]; [|done].
  destruct (truthy_id (editingId st)); [|done]. by intros [= ->].
Qed.

Lemma activeImage_Some st image :
  activeImage st = Some image →
  image ∈ images st ∧ Some (ImageItem.id image) = editingId st.
Proof.
  unfold activeImage. destruct (editingId st) as [eid|]; [|done].
  intros [Hin Hid]%find_some. apply bool_decide_eq_true in Hid.
  split; [by apply list_elem_of_In | by rewrite Hid].
Qed.

Lemma activeImage_exists st img :
  img ∈ images st → Some (ImageItem.id img) = editingId st →
  is_Some (activeImage st).
Proof.
  intros Hin Hid. unfold activeImage. rewrite <- Hid.
  destruct (List.find _ (images st)) as [x|] eqn:Hfind; [by eexists|].
  apply list_elem_of_In in Hin.
  pose proof (find_none _ _ Hfind img Hin) as Hno.
  by rewrite bool_decide_eq_false in Hno.
Qed.

(** While an id is being edited, the gallery is not rendered. *)
Lemma editing_not_gallery st :
  ui_invariant st → truthy_id (editingId st) = true → render st ≠ GalleryView.
Proof.
  intros [_ Hed] Htr. destruct (Hed Htr) as (_ & Hshow & img & Hin & Hid).
  destruct (activeImage_exists st img Hin Hid) as [image Himage].
  unfold render. by rewrite Hshow, Himage, Htr.
Qed.

Lemma gallery_not_editing st :
  ui_invariant st → render st = GalleryView → truthy_id (editingId st) = false.
Proof.
  intros Hinv Hg. destruct (truthy_id (editingId st)) eqn:Htr; [|done].
  by destruct (editing_not_gallery st Hinv Htr).
Qed.

Lemma selection_in_collection_exists_ids (imgs imgs' : list ImageItem.t)
    (e : option JsString) :
  ImageItem.id <$> imgs' = ImageItem.id <$> imgs →
  (∃ img, img ∈ imgs ∧ Some (ImageItem.id img) = e) →
  ∃ img, img ∈ imgs' ∧ Some (ImageItem.id img) = e.
Proof.
  intros Hids (img & Hin & <-).
  assert (ImageItem.id img ∈ ImageItem.id <$> imgs') as Hin'.
  { rewrite Hids. by apply list_elem_of_fmap_2. }
  apply list_elem_of_fmap in Hin' as (img' & Heq & Hin'). exists img'.
  by rewrite Heq.
Qed.

Lemma ui_step_invariant ev st w :
  ui_enabled st ev → ui_invariant st → ui_invariant (step ev st w).1.
Proof.
  intros Hen Hinv. pose proof Hinv as [Hb He]. destruct ev; simpl in *.
  - destruct (setImages_frame (onFileLoad fileName result) st w)
      as (Himgs & Hed & Hm & Hs & Hsh).
    split; rewrite ?Hed, ?Hm, ?Hs, ?Hsh, ?Himgs; [done|].
    intros Htr. destruct (He Htr) as (? & ? & img & Hin & Hid).
    split_and!; [done..|]. exists img. split; [|done].
    destruct (onFileLoad_spec fileName result (images st) w)
      as [->|(r & newId & _ & _ & ->)]; [done|].
    apply elem_of_app. by left.
  - destruct (setImages_frame (handleUpdateImage id newUrl prompt) st w)
      as (Himgs & Hed & Hm & Hs & Hsh).
    split; rewrite ?Hed, ?Hm, ?Hs, ?Hsh, ?Himgs; [done|].
    intros Htr. destruct (He Htr) as (? & ? & Hex).
    split_and!; [done..|].
    eapply selection_in_collection_exists_ids; [|exact Hex].
    apply handleUpdateImage_ids.
  - split; simpl; [done|]. intros Htr.
    destruct (He Htr) as (_ & Hsh & _). congruence.
  - destruct Hen as (Hg & _). pose proof (gallery_not_editing st Hinv Hg) as Hno.
    destruct (removeImage_frame id st) as (Hed & Hm & Hsh).
    split; rewrite ?Hed, ?Hm, ?Hsh.
    + intros Hshow. by rewrite (render_gallery st Hg) in Hshow.
    + intros Htr. congruence.
  - destruct Hen as (Hg & _). pose proof (gallery_not_editing st Hinv Hg) as Hno.
    pose proof (render_gallery st Hg) as Hsh.
    unfold toggleSelectionMode. destruct (isSelectionMode st); split; simpl;
      solve [intros; congruence].
  - destruct Hen as (Hg & img & Hin & Hid).
    pose proof (gallery_not_editing st Hinv Hg) as Hno.
    pose proof (render_gallery st Hg) as Hsh.
    unfold handleClick. destruct (isSelectionMode st) eqn:Hm.
    + destruct (toggleSelection_frame id st w) as (_ & Hed' & Hm' & Hsh').
      split; rewrite ?Hed', ?Hm', ?Hsh'; intros; congruence.
    + split; simpl; [intros; congruence|]. intros _.
      split_and!; [done | done |]. exists img. by rewrite Hid.
  - destruct Hen as (Hg & _ & Hblend).
    pose proof (gallery_not_editing st Hinv Hg) as Hno.
    split; simpl; [|intros; congruence]. intros _.
    unfold blendButtonShown in Hblend. apply andb_true_iff in Hblend as [Hm Hsz].
    split; [done|]. by apply Nat.leb_le.
  - split; simpl; [done | done].
  - split; simpl; [done|]. intros Htr.
    destruct (He Htr) as (_ & Hsh & _). congruence.
Qed.

Lemma ui_reachable_invariant w st : ui_reachable w st → ui_invariant st.
Proof.
  induction 1 as [w|w st ev st' w' _ IH Hen Hstep]; [by split|].
  pose proof (ui_step_invariant ev st w Hen IH) as Hinv.
  by rewrite Hstep in Hinv.
Qed.

(** Every selected id that names an image of the collection contributes an
    image to the list handed to the blend editor. *)
Lemma selectedImagesList_at_least (imgs : list ImageItem.t) (sel : JsSet.t) :
  JsSet.wf sel → selection_in_collection imgs sel →
  JsSet.size sel ≤ length (selectedImagesList imgs sel).
Proof.
  intros Hwf Hsel. unfold JsSet.size.
  rewrite <- (length_fmap ImageItem.id (selectedImagesList imgs sel)).
  apply submseteq_length, NoDup_submseteq; [done|].
  intros sid Hsid. destruct (Hsel sid Hsid) as (img & Hin & <-).
  apply list_elem_of_fmap_2. unfold selectedImagesList.
  apply list_elem_of_filter. split; [|done].
  apply Is_true_true. by apply has_true.
Qed.

(** With pairwise different image ids there is exactly one image for each
    selected id. *)
Lemma selectedImagesList_at_most (imgs : list ImageItem.t) (sel : JsSet.t) :
  NoDup (ImageItem.id <$> imgs) →
  length (selectedImagesList imgs sel) ≤ JsSet.size sel.
Proof.
  intros Hnd. unfold JsSet.size.
  rewrite <- (length_fmap ImageItem.id (selectedImagesList imgs sel)).
  apply submseteq_length, NoDup_submseteq.
  - eapply sublist_NoDup; [exact Hnd | apply fmap_sublist, sublist_filter].
  - intros sid (img & -> & Hin)%list_elem_of_fmap.
    apply list_elem_of_filter in Hin as [Hsel _].
    apply has_true. by apply Is_true_true.
Qed.

(** X3. Whenever the blend editor is on screen, selection mode is on,
    between two and four ids are selected, and the editor is handed a
    reference image and at least one target image; when the ids of the
    collection are pairwise different it is handed exactly one image for
    each selected id. *)
Theorem X3_blend_editor_gets_reference_and_target
    (w : World) (st : AppState) :
  ui_reachable w st →
  showMultiEditor st = true →
  isSelectionMode st = true ∧
  2 ≤ JsSet.size (selectedIds st) ∧ JsSet.size (selectedIds st) ≤ 4 ∧
  (∃ reference target targets,
     render st = MultiEditorView (reference :: target :: targets) ∧
     MultiImageEditor.referenceImage
       (selectedImagesList (images st) (selectedIds st)) = Some reference ∧
     MultiImageEditor.targetImages
       (selectedImagesList (images st) (selectedIds st)) = target :: targets) ∧
  (NoDup (ImageItem.id <$> images st) →
   length (selectedImagesList (images st) (selectedIds st))
     = JsSet.size (selectedIds st)).
Proof.
  intros Hreach Hshow.
  destruct (ui_reachable_invariant w st Hreach) as [Hb _].
  destruct (reachable_invariant w st (ui_reachable_reachable w st Hreach))
    as [_ Hsz Hwf Hsel].
  destruct (Hb Hshow) as [Hmode Htwo].
  pose proof (selectedImagesList_at_least _ _ Hwf Hsel) as Hlen.
  split_and!; [done..| |].
  - unfold render. rewrite Hshow.
    destruct (selectedImagesList (images st) (selectedIds st))
      as [|reference [|target targets]]; simpl in Hlen; [lia | lia |].
    by exists reference, target, targets.
  - intros Hnd. apply Nat.le_antisymm; [|done].
    by apply selectedImagesList_at_most.
Qed.

Lemma blendSession_ui_reachable :
  ui_reachable (run_events blendSession (initialApp, world0)).2
    (run_events blendSession (initialApp, world0)).1.
Proof.
  apply ui_reachable_run; [apply ui_reachable_init|].
  simpl. split_and!; try done.
  - eexists. split; [apply list_elem_of_further, list_elem_of_here|].
    reflexivity.
  - eexists. split; [apply list_elem_of_here|]. reflexivity.
Defined.

Lemma X3_witness :
  isSelectionMode (run_events blendSession (initialApp, world0)).1 = true ∧
  JsSet.size (selectedIds (run_events blendSession (initialApp, world0)).1) = 2.
Proof.
  destruct (X3_blend_editor_gets_reference_and_target _ _
              blendSession_ui_reachable eq_refl) as (Hmode & _).
  split; [exact Hmode | reflexivity].
Defined.

(** X4. The single-image editor is on screen only outside selection mode,
    with nothing selected, and for an image that is in the collection and
    carries the id being edited; and while the gallery is on screen no
    (non-empty) id is being edited. *)
Theorem X4_editor_excludes_selection_mode (w : World) (st : AppState) :
  ui_reachable w st →
  (∀ image, render st = EditorView image →
     isSelectionMode st = false ∧ showMultiEditor st = false ∧
     selectedIds st = [] ∧
     image ∈ images st ∧ Some (ImageItem.id image) = editingId st) ∧
  (render st = GalleryView → truthy_id (editingId st) = false).
Proof.
  intros Hreach. pose proof (ui_reachable_invariant w st Hreach) as Hinv.
  split; [|by apply gallery_not_editing].
  intros image (Hshow & Htr & Hact)%render_editor.
  destruct Hinv as [_ He]. destruct (He Htr) as (Hmode & _ & _).
  destruct (activeImage_Some st image Hact) as [Hin Hid].
  split_and!; try done.
  by apply (reachable_selection_off w st (ui_reachable_reachable w st Hreach)).
Qed.

Lemma editSession_ui_reachable :
  ui_reachable (run_events editSession (initialApp, world0)).2
    (run_events editSession (initialApp, world0)).1.
Proof.
  apply ui_reachable_run; [apply ui_reachable_init|].
  simpl. split_and!; try done.
  eexists. split; [apply list_elem_of_here|]. reflexivity.
Defined.

Lemma X4_witness :
  isSelectionMode (run_events editSession (initialApp, world0)).1 = false ∧
  showMultiEditor (run_events editSession (initialApp, world0)).1 = false ∧
  selectedIds (run_events editSession (initialApp, world0)).1 = [] ∧
  ImageItem.mk (js "v0") (js "A") (js "A") (js "a.png") [] false
    ∈ images (run_events editSession (initialApp, world0)).1 ∧
  Some (js "v0") = editingId (run_events editSession (initialApp, world0)).1.
Proof.
  apply (proj1 (X4_editor_excludes_selection_mode _ _ editSession_ui_reachable)
           (ImageItem.mk (js "v0") (js "A") (js "A") (js "a.png") [] false)).
  reflexivity.
Defined.

(** ** The reference badge of the gallery *)

Lemma findIndexSelected_Some imgs (sel : JsSet.t) k :
  findIndexSelected imgs sel = Some k →
  ∃ img, imgs !! k = Some img ∧
    head (selectedImagesList imgs sel) = Some img ∧
    JsSet.has (ImageItem.id img) sel = true ∧
    ∀ j img', j < k → imgs !! j = Some img' →
      JsSet.has (ImageItem.id img') sel = false.
Proof.
  revert k. induction imgs as [|img imgs IH]; intros k; simpl; [done|].
  unfold selectedImagesList. rewrite filter_cons.
  destruct (JsSet.has (ImageItem.id img) sel) eqn:Hhas.
  - intros [= <-]. exists img. rewrite decide_True by (simpl; exact I).
    split_and!; [done..|]. intros j img' Hj. lia.
  - rewrite decide_False by (simpl; intros []).
    destruct (findIndexSelected imgs sel) as [k'|] eqn:Hfind; [|done].
    intros [= <-]. destruct (IH k' eq_refl) as (r & Hr & Hhead & Hsel & Hbefore).
    exists r. split_and!; [done..|].
    intros [|j] img' Hj Himg'; simpl in Himg'.
    + by injection Himg' as <-.
    + apply (Hbefore j); [lia | done].
Qed.

Lemma findIndexSelected_None imgs (sel : JsSet.t) :
  findIndexSelected imgs sel = None ↔ selectedImagesList imgs sel = [].
Proof.
  induction imgs as [|img imgs IH]; simpl; [done|].
  unfold selectedImagesList in *. rewrite filter_cons.
  destruct (JsSet.has (ImageItem.id img) sel) eqn:Hhas.
  - rewrite decide_True by (simpl; exact I). done.
  - rewrite decide_False by (simpl; intros []). rewrite <- IH.
    destruct (findIndexSelected imgs sel); done.
Qed.

(** X5. The gallery and the blend editor agree on the reference image: the
    card that carries the "Reference" badge is the first card whose image is
    selected, its image is the one the blend editor takes as
    [referenceImage], no two cards carry the badge, and no card carries it
    exactly when nothing of the collection is selected. *)
Theorem X5_reference_badge_marks_reference_image (st : AppState) :
  (∀ index img,
     images st !! index = Some img →
     referenceBadgeShown st index img = true →
     isSelectionMode st = true ∧
     MultiImageEditor.referenceImage
       (selectedImagesList (images st) (selectedIds st)) = Some img ∧
     ∀ j img', j < index → images st !! j = Some img' →
       JsSet.has (ImageItem.id img') (selectedIds st) = false) ∧
  (∀ i j img img',
     referenceBadgeShown st i img = true →
     referenceBadgeShown st j img' = true → i = j) ∧
  (isSelectionMode st = true →
   selectedImagesList (images st) (selectedIds st) ≠ [] →
   ∃ index img, images st !! index = Some img ∧
     referenceBadgeShown st index img = true) ∧
  (selectedImagesList (images st) (selectedIds st) = [] →
   ∀ index img, referenceBadgeShown st index img = false).
Proof.
  unfold referenceBadgeShown. split_and!.
  - intros index img Himg Hbadge.
    apply andb_true_iff in Hbadge as [[Hmode Hsel]%andb_true_iff Hidx].
    apply bool_decide_eq_true in Hidx. symmetry in Hidx.
    destruct (findIndexSelected_Some _ _ _ Hidx) as (r & Hr & Hhead & _ & Hbefore).
    rewrite Himg in Hr. injection Hr as <-. done.
  - intros i j img img' Hi Hj.
    apply andb_true_iff in Hi as [_ Hi]. apply andb_true_iff in Hj as [_ Hj].
    apply bool_decide_eq_true in Hi. apply bool_decide_eq_true in Hj. congruence.
  - intros Hmode Hne.
    destruct (findIndexSelected (images st) (selectedIds st)) as [k|] eqn:Hfind.
    + destruct (findIndexSelected_Some _ _ _ Hfind) as (r & Hr & _ & Hsel & _).
      exists k, r. split; [done|]. rewrite Hmode, Hsel. simpl.
      by apply bool_decide_eq_true.
    + by apply findIndexSelected_None in Hfind.
  - intros Hnil index img. apply findIndexSelected_None in Hnil. rewrite Hnil.
    rewrite bool_decide_eq_false_2 by done. by rewrite andb_false_r.
Qed.

Lemma X5_witness :
  isSelectionMode fourSelected = true ∧
  MultiImageEditor.referenceImage
    (selectedImagesList (images fourSelected) (selectedIds fourSelected))
    = Some imgA ∧
  ∀ j img', j < 0 → images fourSelected !! j = Some img' →
    JsSet.has (ImageItem.id img') (selectedIds fourSelected) = false.
Proof.
  apply (proj1 (X5_reference_badge_marks_reference_image fourSelected) 0 imgA);
    reflexivity.
Defined.

(** ** The history panel of the editor *)

Lemma historyRows_lookup image idx k v :
  Editor.historyRows image !! idx = Some (k, v) ↔
  idx < length (ImageItem.versions image) ∧
  k = length (ImageItem.versions image) - 1 - idx ∧
  ImageItem.versions image !! k = Some v.
Proof.
  unfold Editor.historyRows. rewrite list_lookup_imap.
  destruct (reverse (ImageItem.versions image) !! idx) as [x|] eqn:Hrev; simpl.
  - apply reverse_lookup_Some in Hrev as [Hx Hlt].
    replace (length (ImageItem.versions image) - S idx)
      with (length (ImageItem.versions image) - 1 - idx) in Hx by lia.
    split.
    + intros [= <- <-]. done.
    + intros (_ & -> & Hv). rewrite Hx in Hv. by injection Hv as ->.
  - split; [done|]. intros (Hlt & _ & _).
    apply lookup_ge_None in Hrev. rewrite length_reverse in Hrev. lia.
Qed.

Lemma historyRows_snoc i o c n vs p v :
  Editor.historyRows (ImageItem.mk i o c n (vs ++ [v]) p) =
  (length vs, v) :: Editor.historyRows (ImageItem.mk i o c n vs p).
Proof.
  unfold Editor.historyRows. simpl. rewrite reverse_snoc, imap_cons.
  f_equal.
  - f_equal. rewrite length_app. simpl. lia.
  - apply imap_ext. intros idx x _. simpl. f_equal.
    rewrite length_app. simpl. lia.
Qed.

Lemma snd_imap_pair {A B} (g : nat → B) (l : list A) :
  snd <$> imap (λ i x, (g i, x)) l = l.
Proof.
  revert g. induction l as [|x l IH]; intros g; [done|].
  rewrite imap_cons. simpl. f_equal. apply (IH (g ∘ S)).
Qed.

(** X6. The version stack has one row for each version, the newest on top.
    The index a row passes to [setViewingVersionIndex] is inside the version
    list and is the index of the row's own version: after a click on a row
    the active content is that version's content (reading it never fails)
    and the row is highlighted. *)
Theorem X6_history_rows_select_their_version (image : ImageItem.t) :
  length (Editor.historyRows image) = length (ImageItem.versions image) ∧
  snd <$> Editor.historyRows image = reverse (ImageItem.versions image) ∧
  ∀ idx k v, Editor.historyRows image !! idx = Some (k, v) →
    k = length (ImageItem.versions image) - 1 - idx ∧
    k < length (ImageItem.versions image) ∧
    ImageItem.versions image !! k = Some v ∧
    (∀ st imgs w,
       ∃ st', Editor.run (Editor.clickRow (k, v)) (st, imgs) w
                = ((st', imgs), w) ∧
         Editor.viewingVersionIndex st' = Some k ∧
         Editor.activeUrl image (Editor.viewingVersionIndex st')
           = Some (EditedVersion.url v) ∧
         Editor.isActive (EditedVersion.url v) v = true).
Proof.
  split_and!.
  - unfold Editor.historyRows. by rewrite length_imap, length_reverse.
  - unfold Editor.historyRows. apply snd_imap_pair.
  - intros idx k v (Hlt & Hk & Hv)%historyRows_lookup.
    split_and!; [done | lia | done |].
    intros st imgs w. eexists. split; [reflexivity|]. simpl.
    split_and!; [done | by rewrite Hv | by apply bool_decide_eq_true].
Qed.

Lemma X6_witness :
  0 = length (ImageItem.versions imgB) - 1 - 0 ∧
  0 < length (ImageItem.versions imgB) ∧
  ImageItem.versions imgB !! 0 =
    Some (EditedVersion.mk (js "v9") (js "Q") (js "add glow") 1699999999999%Z).
Proof.
  destruct (proj2 (proj2 (X6_history_rows_select_their_version imgB)) 0 0
              (EditedVersion.mk (js "v9") (js "Q") (js "add glow")
                 1699999999999%Z) eq_refl) as (H1 & H2 & H3 & _).
  exact (conj H1 (conj H2 H3)).
Defined.

(** X7. For an image whose current content is that of its latest version
    (every image of a reachable state): while no version is being viewed,
    the top row of the version stack is the highlighted one; and an image
    without versions has no row in the stack, its "Original Image" row is
    highlighted, and neither the Reset nor the compare button is
    rendered. *)
Theorem X7_history_panel_of_current_view (image : ImageItem.t) :
  current_is_latest image →
  (ImageItem.versions image ≠ [] →
   ∃ v, Editor.historyRows image !! 0
          = Some (length (ImageItem.versions image) - 1, v) ∧
     Editor.activeUrl image None = Some (EditedVersion.url v) ∧
     Editor.isActive (ImageItem.currentUrl image) v = true) ∧
  (ImageItem.versions image = [] →
   Editor.historyRows image = [] ∧
   Editor.originalRowHighlighted image = true ∧
   Editor.resetButtonShown image = false ∧
   Editor.compareButtonShown image (ImageItem.currentUrl image) = false).
Proof.
  unfold current_is_latest, latestContent. intros Hcur. split.
  - intros Hne. destruct (last (ImageItem.versions image)) as [v|] eqn:Hlast.
    + exists v. rewrite last_lookup in Hlast. split_and!.
      * apply historyRows_lookup. split_and!.
        -- destruct (ImageItem.versions image); [done | simpl; lia].
        -- lia.
        -- rewrite <- Hlast. f_equal. lia.
      * simpl. by rewrite Hcur.
      * by apply bool_decide_eq_true.
    + by apply last_None in Hlast.
  - intros Hnil. rewrite Hnil in Hcur. simpl in Hcur.
    unfold Editor.historyRows, Editor.originalRowHighlighted,
      Editor.resetButtonShown, Editor.compareButtonShown.
    rewrite Hnil. split_and!; [done | | |].
    + by apply bool_decide_eq_true.
    + apply bool_decide_eq_false. by intros ?.
    + apply bool_decide_eq_false. by intros ?.
Qed.

Lemma X7_witness :
  Editor.historyRows imgA = [] ∧
  Editor.originalRowHighlighted imgA = true ∧
  Editor.resetButtonShown imgA = false ∧
  Editor.compareButtonShown imgA (ImageItem.currentUrl imgA) = false.
Proof.
  apply (X7_history_panel_of_current_view imgA); reflexivity.
Defined.

(** X8. After a revert of the image shown in the editor, the version stack
    has one more row, on top, labelled "Revert to Original", above the rows
    it had; the image is back at its original content, so the "Original
    Image" row is highlighted and neither the Reset button nor, while no
    version is viewed, the compare button is rendered; and the editor's own
    state is as before. *)
Theorem X8_revert_in_the_history_panel
    (prev : list ImageItem.t) (i : nat) (img : ImageItem.t)
    (est : Editor.State) (w : World) :
  prev !! i = Some img →
  ∃ next w' img' v,
    Editor.run (Editor.handleRevertToOriginal img) (est, prev) w
      = ((est, next), w') ∧
    next !! i = Some img' ∧
    EditedVersion.prompt v = js "Revert to Original" ∧
    Editor.historyRows img' =
      (length (ImageItem.versions img), v) :: Editor.historyRows img ∧
    Editor.originalRowHighlighted img' = true ∧
    Editor.resetButtonShown img' = false ∧
    Editor.compareButtonShown img' (ImageItem.currentUrl img') = false ∧
    current_is_latest img'.
Proof.
  intros Hi.
  destruct (handleUpdateImage_lookup (ImageItem.id img)
              (ImageItem.originalUrl img) (js "Revert to Original") prev w i img Hi)
    as (img' & Hi' & Hupd).
  unfold updated in Hupd. rewrite decide_True in Hupd by done.
  destruct Hupd as (v & Hu & Hp & ->).
  unfold Editor.handleRevertToOriginal, Editor.run, Editor.run_effect.
  cbv [mbind M_bind mret M_ret].
  destruct (handleUpdateImage _ _ _ prev w) as [next w'] eqn:Hrun.
  simpl in Hi'. eexists next, w', _, v.
  split_and!; [done | exact Hi' | done | | | | |].
  - rewrite historyRows_snoc. by destruct img.
  - by apply bool_decide_eq_true.
  - apply bool_decide_eq_false. by intros ?.
  - apply bool_decide_eq_false. by intros ?.
  - unfold current_is_latest. by rewrite latestContent_snoc.
Qed.

Lemma X8_witness :
  ∃ next w' img' v,
    Editor.run (Editor.handleRevertToOriginal imgB)
      (Editor.initialState, [imgA; imgB]) world0
      = ((Editor.initialState, next), w') ∧
    next !! 1 = Some img' ∧
    EditedVersion.prompt v = js "Revert to Original" ∧
    Editor.historyRows img' =
      (length (ImageItem.versions imgB), v) :: Editor.historyRows imgB ∧
    Editor.originalRowHighlighted img' = true ∧
    Editor.resetButtonShown img' = false ∧
    Editor.compareButtonShown img' (ImageItem.currentUrl img') = false ∧
    current_is_latest img'.
Proof.
  apply (X8_revert_in_the_history_panel [imgA; imgB] 1 imgB
           Editor.initialState world0).
  reflexivity.
Defined.

(** ** [Editor.handleGenerate]: what a request leaves behind *)

Lemma handleGenerate_log image st active service :
  falsy (trim (Editor.st_prompt st)) = false →
  Editor.handleGenerate image st active service =
    [Editor.SetIsProcessing true; Editor.SetError None;
     Editor.EditImageWithGemini
       (Editor.mkParams active (Editor.st_prompt st)
          (Editor.st_preserveFaces st))] ++
    match service (Editor.mkParams active (Editor.st_prompt st)
                     (Editor.st_preserveFaces st)) with
    | Some newImageUrl =>
        [Editor.OnUpdateImage (ImageItem.id image) newImageUrl
           (Editor.st_prompt st);
         Editor.SetViewingVersionIndex None;
         Editor.SetPrompt []]
    | None => [Editor.SetError (Some Editor.failureNotice)]
    end ++
    [Editor.SetIsProcessing false].
Proof. intros Hgo. unfold Editor.handleGenerate. by rewrite Hgo. Qed.

(** X9. A generate whose request succeeds: the collection is updated by
    exactly one [handleUpdateImage] with the image's id, the returned
    content and the prompt as typed; the edited image gets the returned
    content as a new last version and as current content; the editor ends
    with an empty prompt, no error, the processing flag cleared and no
    version being viewed, so that it shows the new content. *)
Theorem X9_generate_success
    (image : ImageItem.t) (st : Editor.State) (active newUrl : JsString)
    (service : Editor.EditRequestParams → option JsString)
    (imgs : list ImageItem.t) (i : nat) (w : World) :
  falsy (trim (Editor.st_prompt st)) = false →
  service (Editor.mkParams active (Editor.st_prompt st)
             (Editor.st_preserveFaces st)) = Some newUrl →
  imgs !! i = Some image →
  ∃ st' img' v,
    Editor.run (Editor.handleGenerate image st active service) (st, imgs) w =
      ((st', (handleUpdateImage (ImageItem.id image) newUrl
                (Editor.st_prompt st) imgs w).1),
       (handleUpdateImage (ImageItem.id image) newUrl
          (Editor.st_prompt st) imgs w).2) ∧
    st' = Editor.mkState [] false None (Editor.st_preserveFaces st)
            (Editor.showOriginal st) None ∧
    (handleUpdateImage (ImageItem.id image) newUrl (Editor.st_prompt st)
       imgs w).1 !! i = Some img' ∧
    ImageItem.versions img' = ImageItem.versions image ++ [v] ∧
    EditedVersion.url v = newUrl ∧
    EditedVersion.prompt v = Editor.st_prompt st ∧
    ImageItem.currentUrl img' = newUrl ∧
    Editor.activeUrl img' (Editor.viewingVersionIndex st') = Some newUrl.
Proof.
  intros Hgo Hok Hi. rewrite handleGenerate_log by done. rewrite Hok.
  destruct (handleUpdateImage_lookup (ImageItem.id image) newUrl
              (Editor.st_prompt st) imgs w i image Hi) as (img' & Hi' & Hupd).
  unfold updated in Hupd. rewrite decide_True in Hupd by done.
  destruct Hupd as (v & Hu & Hp & ->).
  destruct (handleUpdateImage _ _ _ imgs w) as [next w'] eqn:Hrun.
  cbv [Editor.run Editor.run_effect mbind M_bind mret M_ret app].
  rewrite Hrun. simpl in *. eexists _, _, v. split_and!; try done.
Qed.

Lemma X9_witness :
  ∃ st' img' v,
    Editor.run
      (Editor.handleGenerate imgA sketchPrompt (js "A") (λ _, Some (js "B")))
      (sketchPrompt, [imgA; imgB]) world0 =
      ((st', (handleUpdateImage (js "img1") (js "B") (js " make it sketch ")
                [imgA; imgB] world0).1),
       (handleUpdateImage (js "img1") (js "B") (js " make it sketch ")
          [imgA; imgB] world0).2) ∧
    st' = Editor.mkState [] false None true false None ∧
    (handleUpdateImage (js "img1") (js "B") (js " make it sketch ")
       [imgA; imgB] world0).1 !! 0 = Some img' ∧
    ImageItem.versions img' = ImageItem.versions imgA ++ [v] ∧
    EditedVersion.url v = js "B" ∧
    EditedVersion.prompt v = js " make it sketch " ∧
    ImageItem.currentUrl img' = js "B" ∧
    Editor.activeUrl img' (Editor.viewingVersionIndex st') = Some (js "B").
Proof.
  apply (X9_generate_success imgA sketchPrompt (js "A") (js "B")
           (λ _, Some (js "B")) [imgA; imgB] 0 world0); reflexivity.
Defined.

(** X10. A generate whose request fails: the collection and the browser
    state are as before (no version, no id drawn, no alert), the error
    message is "Failed to generate image. Please try again.", the processing
    flag is cleared, and the prompt and the viewed version are kept. *)
Theorem X10_generate_failure
    (image : ImageItem.t) (st : Editor.State) (active : JsString)
    (service : Editor.EditRequestParams → option JsString)
    (imgs : list ImageItem.t) (w : World) :
  falsy (trim (Editor.st_prompt st)) = false →
  service (Editor.mkParams active (Editor.st_prompt st)
             (Editor.st_preserveFaces st)) = None →
  Editor.run (Editor.handleGenerate image st active service) (st, imgs) w =
    ((Editor.mkState (Editor.st_prompt st) false
        (Some (js "Failed to generate image. Please try again."))
        (Editor.st_preserveFaces st) (Editor.showOriginal st)
        (Editor.viewingVersionIndex st), imgs), w).
Proof.
  intros Hgo Hfail. rewrite handleGenerate_log by done. rewrite Hfail.
  reflexivity.
Qed.

Lemma X10_witness :
  Editor.run
    (Editor.handleGenerate imgA sketchPrompt (js "A") (λ _, None))
    (sketchPrompt, [imgA; imgB]) world0 =
    ((Editor.mkState (js " make it sketch ") false
        (Some (js "Failed to generate image. Please try again."))
        true false None, [imgA; imgB]), world0).
Proof.
  apply (X10_generate_failure imgA sketchPrompt (js "A") (λ _, None)
           [imgA; imgB] world0); reflexivity.
Defined.

(** X11. With a prompt that has a character other than white space,
    [handleGenerate] sends exactly one request, whatever the processing flag
    is at that time: it carries the content on display ([activeUrl]), the
    prompt as typed (not trimmed) and the face option; the processing flag
    is set before the request and cleared last, whether the request
    succeeds or fails; and [onUpdateImage] is called at most once, only with
    the id of the edited image. *)
Theorem X11_generate_sends_one_request
    (image : ImageItem.t) (st : Editor.State) (active : JsString)
    (service : Editor.EditRequestParams → option JsString) :
  falsy (trim (Editor.st_prompt st)) = false →
  let log := Editor.handleGenerate image st active service in
  Editor.requestsSent log =
    [Editor.mkParams active (Editor.st_prompt st) (Editor.st_preserveFaces st)] ∧
  (∃ rest, log = Editor.SetIsProcessing true :: Editor.SetError None ::
                 Editor.EditImageWithGemini
                   (Editor.mkParams active (Editor.st_prompt st)
                      (Editor.st_preserveFaces st)) :: rest) ∧
  last log = Some (Editor.SetIsProcessing false) ∧
  (∀ id newUrl prompt, Editor.OnUpdateImage id newUrl prompt ∈ log →
     id = ImageItem.id image ∧ prompt = Editor.st_prompt st ∧
     service (Editor.mkParams active (Editor.st_prompt st)
                (Editor.st_preserveFaces st)) = Some newUrl) ∧
  (Editor.generateDisabled st = false ↔ Editor.isProcessing st = false).
Proof.
  intros Hgo log. subst log. rewrite handleGenerate_log by done.
  destruct (service _) as [newUrl|] eqn:Hs; simpl.
  - split_and!; [done | by eexists | done | |].
    + intros id u p Hin. repeat (apply elem_of_cons in Hin as [Hin|Hin]; [try done|]).
      * by injection Hin as -> -> ->.
      * by apply elem_of_nil in Hin.
    + unfold Editor.generateDisabled. rewrite Hgo, orb_false_r. done.
  - split_and!; [done | by eexists | done | |].
    + intros id u p Hin. repeat (apply elem_of_cons in Hin as [Hin|Hin]; [try done|]).
      by apply elem_of_nil in Hin.
    + unfold Editor.generateDisabled. rewrite Hgo, orb_false_r. done.
Qed.

Lemma X11_witness :
  Editor.requestsSent
    (Editor.handleGenerate imgA sketchPrompt (js "A") (λ _, Some (js "B")))
  = [Editor.mkParams (js "A") (js " make it sketch ") true].
Proof.
  apply (X11_generate_sends_one_request imgA sketchPrompt (js "A")
           (λ _, Some (js "B"))); reflexivity.
Defined.

(** ** [MultiImageEditor] *)

Lemma multi_handleGenerate_go selectedImages prompt confirm service :
  falsy (trim prompt) && negb (confirm MultiImageEditor.confirmQuestion)
    = false →
  MultiImageEditor.handleGenerate selectedImages prompt confirm service =
    (if falsy (trim prompt)
     then [MultiImageEditor.WindowConfirm MultiImageEditor.confirmQuestion]
     else []) ++
    [MultiImageEditor.SetIsProcessing true; MultiImageEditor.SetError None;
     MultiImageEditor.SetGeneratedImage None;
     MultiImageEditor.GenerateMultiImageTransform
       (ImageItem.currentUrl <$> selectedImages)
       (js_or prompt MultiImageEditor.defaultPrompt)] ++
    match service (ImageItem.currentUrl <$> selectedImages)
            (js_or prompt MultiImageEditor.defaultPrompt) with
    | Some resultUrl => [MultiImageEditor.SetGeneratedImage (Some resultUrl)]
    | None => [MultiImageEditor.SetError
                 (Some MultiImageEditor.failureNotice)]
    end ++
    [MultiImageEditor.SetIsProcessing false].
Proof.
  intros Hgo. unfold MultiImageEditor.handleGenerate. by rewrite Hgo.
Qed.

(** X12. What a blend leaves in the blend editor.  Declined in the
    confirmation dialog: the state is untouched and only the dialog was
    shown.  Otherwise the result of an earlier blend is discarded first;
    if the request succeeds the new result is stored and there is no error
    message; if it fails the error message is "Failed to generate image.
    Please try again." and no result is left, not even the earlier one.
    The processing flag is cleared in both cases and the prompt is kept. *)
Theorem X12_blend_outcomes
    (selectedImages : list ImageItem.t) (st : MultiImageEditor.State)
    (confirm : JsString → bool)
    (service : list JsString → JsString → option JsString) :
  let log :=
    MultiImageEditor.handleGenerate selectedImages
      (MultiImageEditor.st_prompt st) confirm service in
  let payload := ImageItem.currentUrl <$> selectedImages in
  let effective :=
    js_or (MultiImageEditor.st_prompt st) MultiImageEditor.defaultPrompt in
  (falsy (trim (MultiImageEditor.st_prompt st)) = true →
   confirm MultiImageEditor.confirmQuestion = false →
   log = [MultiImageEditor.WindowConfirm MultiImageEditor.confirmQuestion] ∧
   MultiImageEditor.run log st = st) ∧
  (falsy (trim (MultiImageEditor.st_prompt st)) = false ∨
     confirm MultiImageEditor.confirmQuestion = true →
   (∀ resultUrl, service payload effective = Some resultUrl →
      MultiImageEditor.run log st =
        MultiImageEditor.mkState (MultiImageEditor.st_prompt st) false None
          (Some resultUrl)) ∧
   (service payload effective = None →
      MultiImageEditor.run log st =
        MultiImageEditor.mkState (MultiImageEditor.st_prompt st) false
          (Some (js "Failed to generate image. Please try again.")) None)).
Proof.
  intros log payload effective. subst log payload effective. split.
  - intros Hblank Hno. unfold MultiImageEditor.handleGenerate.
    by rewrite Hblank, Hno.
  - intros Hgo.
    assert (falsy (trim (MultiImageEditor.st_prompt st)) &&
            negb (confirm MultiImageEditor.confirmQuestion) = false) as Hgo'.
    { destruct Hgo as [-> | ->]; [done | by rewrite andb_false_r]. }
    rewrite multi_handleGenerate_go by done. split.
    + intros resultUrl ->.
      by destruct (falsy (trim (MultiImageEditor.st_prompt st))).
    + intros ->. by destruct (falsy (trim (MultiImageEditor.st_prompt st))).
Qed.

Lemma X12_witness :
  MultiImageEditor.run
    (MultiImageEditor.handleGenerate [imgA; imgB]
       (MultiImageEditor.st_prompt
          (MultiImageEditor.mkState [] false None (Some (js "old"))))
       (λ _, true) (λ _ _, None))
    (MultiImageEditor.mkState [] false None (Some (js "old"))) =
    MultiImageEditor.mkState [] false
      (Some (js "Failed to generate image. Please try again.")) None.
Proof.
  apply (X12_blend_outcomes [imgA; imgB]
           (MultiImageEditor.mkState [] false None (Some (js "old")))
           (λ _, true) (λ _ _, None)); [right|]; reflexivity.
Defined.

(** X13. What the blend service is sent, seen from the gallery: the current
    contents (not the originals) of the selected images of the collection,
    in gallery order, one request at most; the first content is that of the
    reference image, the others are those of the target images, and
    reference and targets together are the selected images. *)
Theorem X13_blend_payload_in_gallery_order
    (st : AppState) (prompt : JsString) (confirm : JsString → bool)
    (service : list JsString → JsString → option JsString) :
  let selectedImages := selectedImagesList (images st) (selectedIds st) in
  let log :=
    MultiImageEditor.handleGenerate selectedImages prompt confirm service in
  (∀ payload p,
     MultiImageEditor.GenerateMultiImageTransform payload p ∈ log →
     payload =
       ImageItem.currentUrl <$>
         filter (λ img, ImageItem.id img ∈ selectedIds st) (images st) ∧
     length payload = length selectedImages) ∧
  length (MultiImageEditor.promptsSent log) ≤ 1 ∧
  (∀ reference,
     MultiImageEditor.referenceImage selectedImages = Some reference →
     selectedImages =
       reference :: MultiImageEditor.targetImages selectedImages ∧
     ImageItem.currentUrl <$> selectedImages =
       ImageItem.currentUrl reference ::
       (ImageItem.currentUrl <$> MultiImageEditor.targetImages selectedImages) ∧
     S (length (MultiImageEditor.targetImages selectedImages))
       = length selectedImages).
Proof.
  intros selectedImages log. split_and!.
  - intros payload p Hin. subst log.
    unfold MultiImageEditor.handleGenerate in Hin.
    assert (payload = ImageItem.currentUrl <$> selectedImages) as ->.
    { destruct (falsy (trim prompt) && negb _).
      - destruct (falsy (trim prompt));
          repeat (apply elem_of_cons in Hin as [Hin|Hin]; [done|]);
          by apply elem_of_nil in Hin.
      - destruct (falsy (trim prompt)); destruct (service _ _); simpl in Hin;
          repeat (apply elem_of_cons in Hin as [Hin|Hin];
                  [try done; by injection Hin as -> ->|]);
          by apply elem_of_nil in Hin. }
    split; [|by rewrite length_fmap].
    subst selectedImages. by rewrite selectedImagesList_filter.
  - subst log. unfold MultiImageEditor.handleGenerate.
    destruct (falsy (trim prompt) && negb _).
    + destruct (falsy (trim prompt)); simpl; lia.
    + destruct (falsy (trim prompt)); destruct (service _ _); simpl; lia.
  - intros reference Href. unfold MultiImageEditor.referenceImage in Href.
    unfold MultiImageEditor.targetImages.
    destruct selectedImages as [|r targets]; [done|].
    simpl in *. injection Href as ->. rewrite drop_0. done.
Qed.

Lemma X13_witness :
  selectedImagesList (images fourSelected) (selectedIds fourSelected) =
    imgA :: MultiImageEditor.targetImages
              (selectedImagesList (images fourSelected)
                 (selectedIds fourSelected)) ∧
  ImageItem.currentUrl <$>
    selectedImagesList (images fourSelected) (selectedIds fourSelected) =
    ImageItem.currentUrl imgA ::
    (ImageItem.currentUrl <$>
       MultiImageEditor.targetImages
         (selectedImagesList (images fourSelected)
            (selectedIds fourSelected))) ∧
  S (length (MultiImageEditor.targetImages
               (selectedImagesList (images fourSelected)
                  (selectedIds fourSelected))))
    = length (selectedImagesList (images fourSelected)
                (selectedIds fourSelected)).
Proof.
  apply (proj2 (proj2 (X13_blend_payload_in_gallery_order fourSelected []
                         (λ _, true) (λ _ _, None))) imgA).
  reflexivity.
Defined.

(** X14. Saving a blend.  Without a generated image (none yet, or an empty
    content) [handleSave] does nothing.  With one, it calls [onSaveNewImage]
    once, and [App] puts one new image in front of the collection: its id is
    fresh from the browser, its original and current content are the
    generated content, it has no version, and its name is "Blend Result "
    with the time of day (the label that [handleSave] composes is not
    used); the images that were in the collection, the sources of the blend
    among them, are unchanged; the selection is emptied, and selection mode
    and the blend editor are left. *)
Theorem X14_save_puts_blend_in_front
    (selectedImages : list ImageItem.t) (mst : MultiImageEditor.State)
    (st : AppState) (w : World) :
  (MultiImageEditor.generatedImage mst = None ∨
   MultiImageEditor.generatedImage mst = Some [] →
   MultiImageEditor.handleSave selectedImages mst = MultiImageEditor.NotSaved) ∧
  (∀ g reference,
     MultiImageEditor.generatedImage mst = Some g → g ≠ [] →
     MultiImageEditor.referenceImage selectedImages = Some reference →
     ∃ label newImage,
       MultiImageEditor.handleSave selectedImages mst
         = MultiImageEditor.OnSaveNewImage g label ∧
       label = js "Reference: " ++ ImageItem.name reference ++ js " + " ++
               MultiImageEditor.number_to_string (length selectedImages - 1) ++
               js " targets" ∧
       step (SaveNewImage g label) st w =
         (mkApp (newImage :: images st) (editingId st) false [] false,
          mkWorld (randomIds w) (S (randomCalls w)) (clock w)
            (S (clockCalls w)) (toLocaleTimeString w) (alerts w)) ∧
       newImage =
         ImageItem.mk (randomIds w (randomCalls w)) g g
           (js "Blend Result " ++ toLocaleTimeString w (clock w (clockCalls w)))
           [] false).
Proof.
  split.
  - unfold MultiImageEditor.handleSave. by intros [-> | ->].
  - intros g reference Hg Hne Href. unfold MultiImageEditor.handleSave.
    rewrite Hg, Href. destruct g as [|c g]; [done|]. simpl.
    eexists _, _. split_and!; [reflexivity | | reflexivity | reflexivity].
    unfold MultiImageEditor.targetImages. rewrite length_drop. done.
Qed.

Lemma X14_witness :
  ∃ label newImage,
    MultiImageEditor.handleSave [imgA; imgB; imgC]
      (MultiImageEditor.mkState [] false None (Some (js "R")))
      = MultiImageEditor.OnSaveNewImage (js "R") label ∧
    label = js "Reference: a.png + 2 targets" ∧
    step (SaveNewImage (js "R") label) fourSelected world0 =
      (mkApp (newImage :: images fourSelected) None false [] false,
       mkWorld (randomIds world0) 1 (clock world0) 1
         (toLocaleTimeString world0) []) ∧
    newImage =
      ImageItem.mk (js "v0") (js "R") (js "R") (js "Blend Result 10:15:00")
        [] false.
Proof.
  apply (proj2 (X14_save_puts_blend_in_front [imgA; imgB; imgC]
                  (MultiImageEditor.mkState [] false None (Some (js "R")))
                  fourSelected world0) (js "R") imgA);
    [reflexivity | discriminate | reflexivity].
Defined.

(** ** The slider under sequences of events *)

Lemma slider_resize_frame entries st :
  ImageComparison.sliderPos
    (foldl (λ s w, ImageComparison.mkState (ImageComparison.sliderPos s) w
                     (ImageComparison.isDragging s)) st entries)
    = ImageComparison.sliderPos st ∧
  ImageComparison.isDragging
    (foldl (λ s w, ImageComparison.mkState (ImageComparison.sliderPos s) w
                     (ImageComparison.isDragging s)) st entries)
    = ImageComparison.isDragging st.
Proof.
  revert st. induction entries as [|e es IH]; intros st; [done|].
  simpl. by destruct (IH (ImageComparison.mkState
                            (ImageComparison.sliderPos st) e
                            (ImageComparison.isDragging st))) as [-> ->].
Qed.




Lemma slider_idle_run evs st :
  ImageComparison.isDragging st = false →
  Forall (λ ce, ∀ x, ce.2 ≠ ImageComparison.PointerDown x) evs →
  ImageComparison.sliderPos (ImageComparison.run evs st)
    = ImageComparison.sliderPos st ∧
  ImageComparison.isDragging (ImageComparison.run evs st) = false.
Proof.
  intros Hidle Hevs. revert st Hidle.
  induction Hevs as [|[c ev] evs Hev _ IH]; intros st Hidle; [done|].
  simpl.
  assert (ImageComparison.sliderPos (ImageComparison.step c ev st)
            = ImageComparison.sliderPos st ∧
          ImageComparison.isDragging (ImageComparison.step c ev st) = false)
    as [Hpos Hdrag].
  { destruct ev; simpl in *.
    - by destruct (Hev clientX).
    - by rewrite Hidle.
    - by rewrite Hidle.
    - destruct (slider_resize_frame entries st) as [-> ->]. done.
    - done. }
  destruct (IH _ Hdrag) as [-> ->]. done.
Qed.

(** X18. Releasing the pointer ends the drag and keeps the boundary where
    it is; from then on, until the next press, no pointer move, release,
    resize or image load changes the boundary. *)
Theorem X18_released_slider_ignores_moves
    (before after :
       list (option ImageComparison.DOMRect * ImageComparison.Event))
    (container : option ImageComparison.DOMRect)
    (st : ImageComparison.State) :
  Forall (λ ce, ∀ x, ce.2 ≠ ImageComparison.PointerDown x) after →
  ImageComparison.sliderPos
    (ImageComparison.run
       (before ++ (container, ImageComparison.WindowEnd) :: after) st)
    = ImageComparison.sliderPos (ImageComparison.run before st) ∧
  ImageComparison.isDragging
    (ImageComparison.run
       (before ++ (container, ImageComparison.WindowEnd) :: after) st)
    = false.
Proof.
  intros Hafter. unfold ImageComparison.run. rewrite foldl_app.
  cbn [foldl fst snd].
  set (s := foldl _ st before).
  assert (ImageComparison.sliderPos
            (ImageComparison.step container ImageComparison.WindowEnd s)
            = ImageComparison.sliderPos s ∧
          ImageComparison.isDragging
            (ImageComparison.step container ImageComparison.WindowEnd s) = false)
    as [Hpos Hdrag].
  { simpl. by destruct (ImageComparison.isDragging s) eqn:Hd. }
  destruct (slider_idle_run after _ Hdrag Hafter) as [H1 H2].
  unfold ImageComparison.run in H1, H2. rewrite H1, H2, Hpos. done.
Qed.

Lemma X18_witness :
  ImageComparison.sliderPos
    (ImageComparison.run dragSession ImageComparison.initialState)
    = ImageComparison.sliderPos
        (ImageComparison.run (take 2 dragSession)
           ImageComparison.initialState) ∧
  ImageComparison.isDragging
    (ImageComparison.run dragSession ImageComparison.initialState) = false.
Proof.
  apply (X18_released_slider_ignores_moves (take 2 dragSession)
           (drop 3 dragSession) None ImageComparison.initialState).
  apply Forall_cons. split; [by intros x|]. apply Forall_nil_2.
Defined.

(** The comparisons of the labels, read on the rationals that the numbers
    denote. *)
Lemma js_lt_value x mc ec :
  JsNumber.finite x →
  JsNumber.valid (S754_finite false mc ec) →
  (JsNumber.js_lt x (S754_finite false mc ec) = true ↔
   (JsNumber.value x < JsNumber.val (Zpos mc) ec)%Q) ∧
  (JsNumber.js_gt x (S754_finite false mc ec) = true ↔
   (JsNumber.val (Zpos mc) ec < JsNumber.value x)%Q).
Proof.
  intros [Hv Hf] Hc.
  assert (0 < JsNumber.val (Zpos mc) ec)%Q as Hcpos
    by by apply JsNumberFacts.val_pos.
  destruct x as [s|s| |[] m e]; try done; cbn [JsNumber.value].
  - split; split;
      [intros _; exact Hcpos|intros _; reflexivity|intros H; discriminate H|
       intros; lra].
  - assert (0 < JsNumber.val (Zpos m) e)%Q as Hm
      by by apply JsNumberFacts.val_pos.
    split; split;
      [intros _; lra|intros _; reflexivity|intros H; discriminate H|
       intros; lra].
  - split; by apply JsNumberFacts.SFltb_val.
Qed.

(** X19. The "Original" label is faded out exactly below 15 percent and the
    "Edited" label exactly above 85 percent, so never both; at the initial
    position both are visible, and so they are when the position is not a
    number. *)
Theorem X19_labels_never_both_hidden (st : ImageComparison.State) :
  (ImageComparison.originalLabelHidden st &&
   ImageComparison.editedLabelHidden st = false) ∧
  (JsNumber.finite (ImageComparison.sliderPos st) →
     (ImageComparison.originalLabelHidden st = true ↔
      (JsNumber.value (ImageComparison.sliderPos st) < 15)%Q) ∧
     (ImageComparison.editedLabelHidden st = true ↔
      (85 < JsNumber.value (ImageComparison.sliderPos st))%Q)) ∧
  (ImageComparison.sliderPos st = S754_nan →
   ImageComparison.originalLabelHidden st = false ∧
   ImageComparison.editedLabelHidden st = false) ∧
  ImageComparison.originalLabelHidden ImageComparison.initialState = false ∧
  ImageComparison.editedLabelHidden ImageComparison.initialState = false.
Proof.
  unfold ImageComparison.originalLabelHidden, ImageComparison.editedLabelHidden.
  change (JsNumber.of_Z 15) with (S754_finite false 8444249301319680 (-49)).
  change (JsNumber.of_Z 85) with (S754_finite false 5981343255101440 (-46)).
  split_and!.
  - destruct (ImageComparison.sliderPos st) as [s|[]| |[] m e]; try done.
    destruct (JsNumber.js_lt _ _) eqn:H1; [|done].
    destruct (JsNumber.js_gt _ _) eqn:H2; [|done].
    apply JsNumberFacts.SFltb_finite_pos in H1, H2. lia.
  - intros Hfin.
    destruct (js_lt_value _ 8444249301319680 (-49) Hfin eq_refl) as [H15 _].
    destruct (js_lt_value _ 5981343255101440 (-46) Hfin eq_refl) as [_ H85].
    assert (JsNumber.val 8444249301319680 (-49) == 15)%Q as E15
      by reflexivity.
    assert (JsNumber.val 5981343255101440 (-46) == 85)%Q as E85
      by reflexivity.
    rewrite E15 in H15. rewrite E85 in H85. split; [exact H15|exact H85].
  - by intros ->.
  - reflexivity.
  - reflexivity.
Qed.

Lemma X19_witness :
  (ImageComparison.originalLabelHidden
     (ImageComparison.mkState (JsNumber.of_Z 10) (JsNumber.of_Z 0) false)
     = true
   ↔ (JsNumber.value (JsNumber.of_Z 10) < 15)%Q) ∧
  (ImageComparison.editedLabelHidden
     (ImageComparison.mkState (JsNumber.of_Z 10) (JsNumber.of_Z 0) false)
     = true
   ↔ (85 < JsNumber.value (JsNumber.of_Z 10))%Q).
Proof.
  apply (proj1 (proj2 (X19_labels_never_both_hidden
                         (ImageComparison.mkState (JsNumber.of_Z 10)
                            (JsNumber.of_Z 0) false)))).
  split; reflexivity.
Defined.

(** ** The collection store: what never happens, edge cases, round trips *)

(** X20. No handler of [App] ever sets the processing flag of an image: in
    every reachable state every image of the collection has
    [isProcessing = false]. *)
Theorem X20_image_processing_flag_never_set (w : World) (st : AppState) :
  reachable w st →
  Forall (λ img, ImageItem.isProcessing img = false) (images st).
Proof.
  induction 1 as [w|w st ev st' w' _ IH _ Hstep]; [constructor|].
  assert (images st' = images (step ev st w).1) as -> by by rewrite Hstep.
  clear Hstep. destruct ev; simpl.
  - destruct (setImages_frame (onFileLoad fileName result) st w) as (-> & _).
    destruct (onFileLoad_spec fileName result (images st) w)
      as [->|(r & newId & _ & _ & ->)]; [done|].
    apply Forall_app. split; [done|]. by apply Forall_singleton.
  - destruct (setImages_frame (handleUpdateImage id newUrl prompt) st w)
      as (-> & _).
    pose proof (handleUpdateImage_updated id newUrl prompt (images st) w) as Hupd.
    induction Hupd as [|img img' l l' H1 _ IHu]; [constructor|].
    apply Forall_cons in IH as [Himg Hl]. constructor; [|by apply IHu].
    destruct (updated_frame _ _ _ _ _ H1) as (_ & _ & _ & -> & _). done.
  - by constructor.
  - rewrite removeImage_images. rewrite Forall_forall in IH.
    apply Forall_forall. intros img [_ Himg]%list_elem_of_filter. by apply IH.
  - unfold toggleSelectionMode. by destruct (isSelectionMode st).
  - unfold handleClick. destruct (isSelectionMode st); [|done].
    by destruct (toggleSelection_frame id st w) as (-> & _).
  - done.
  - done.
  - done.
Qed.

Lemma X20_witness :
  Forall (λ img, ImageItem.isProcessing img = false)
    (images (run_events blendSession (initialApp, world0)).1).
Proof.
  apply (X20_image_processing_flag_never_set
           (run_events blendSession (initialApp, world0)).2).
  apply ui_reachable_reachable, blendSession_ui_reachable.
Defined.

Lemma filter_id_absent (id : JsString) (imgs : list ImageItem.t) :
  id ∉ ImageItem.id <$> imgs →
  filter (λ img, ImageItem.id img ≠ id) imgs = imgs.
Proof.
  induction imgs as [|img imgs IH]; [done|]. simpl.
  intros [Hne Hrest]%not_elem_of_cons. rewrite filter_cons.
  rewrite decide_True by done. by rewrite IH.
Qed.

(** X21. Edge cases of [removeImage].  With an id that is neither in the
    collection nor selected the state is unchanged; removing twice is the
    same as removing once; every image with the id goes (also when several
    images carry it) and the others keep their order; what is being edited
    and the modes are left alone, and if the removed id was the one being
    edited, no image is active any more. *)
Theorem X21_removeImage_edge_cases (id : JsString) (st : AppState) :
  (id ∉ ImageItem.id <$> images st → id ∉ selectedIds st →
   removeImage id st = st) ∧
  removeImage id (removeImage id st) = removeImage id st ∧
  (id ∉ ImageItem.id <$> images (removeImage id st)) ∧
  images (removeImage id st) `sublist_of` images st ∧
  length (images (removeImage id st)) +
    length (filter (λ img, ImageItem.id img = id) (images st))
    = length (images st) ∧
  editingId (removeImage id st) = editingId st ∧
  isSelectionMode (removeImage id st) = isSelectionMode st ∧
  showMultiEditor (removeImage id st) = showMultiEditor st ∧
  (editingId st = Some id → activeImage (removeImage id st) = None).
Proof.
  assert (id ∉ ImageItem.id <$> images (removeImage id st)) as Hgone.
  { rewrite removeImage_images. intros (img & -> & Hin)%list_elem_of_fmap.
    by apply list_elem_of_filter in Hin as [Hne _]. }
  assert (id ∉ selectedIds (removeImage id st)) as Hunsel.
  { rewrite removeImage_selectedIds. tauto. }
  assert (∀ s, id ∉ ImageItem.id <$> images s → id ∉ selectedIds s →
               removeImage id s = s) as Hnoop.
  { intros s Hi Hs. unfold removeImage.
    apply has_false in Hs. rewrite Hs, filter_id_absent by done. by destruct s. }
  destruct (removeImage_frame id st) as (Hed & Hm & Hsh).
  split_and!; [apply Hnoop | by apply Hnoop | done | | | done | done | done |].
  - rewrite removeImage_images. apply sublist_filter.
  - rewrite removeImage_images.
    rewrite <- (length_app (filter _ _) (filter _ (images st))).
    apply Permutation_length.
    etrans; [|apply (filter_app_complement
                       (λ img, ImageItem.id img ≠ id) (images st))].
    apply Permutation_app; [done|].
    rewrite (list_filter_iff (λ img, ImageItem.id img = id)
               (λ img, ¬ ImageItem.id img ≠ id)); [done|].
    intros img. split; [by intros -> ? | apply dec_stable].
  - intros Hedit. unfold activeImage. rewrite Hed, Hedit.
    destruct (List.find _ _) as [img|] eqn:Hfind; [|done].
    apply find_some in Hfind as [Hin Hid]. apply bool_decide_eq_true in Hid.
    exfalso. apply Hgone. apply list_elem_of_fmap. exists img.
    split; [done | by apply list_elem_of_In].
Qed.

Lemma X21_witness :
  removeImage (js "gone") fourSelected = fourSelected.
Proof.
  apply (X21_removeImage_edge_cases (js "gone") fourSelected);
    by apply (bool_decide_unpack _).
Defined.

Lemma delete_absent x (s : JsSet.t) : x ∉ s → JsSet.delete x s = s.
Proof.
  unfold JsSet.delete. induction s as [|y s IH]; [done|].
  intros [Hy Hs]%not_elem_of_cons. rewrite filter_cons.
  rewrite decide_True by done. by rewrite IH.
Qed.

(** X22. With at most four ids selected (as in every reachable state),
    clicking the same card twice in selection mode restores which ids
    are selected, in every case (the id was selected; it was not and there
    was room; it was not and four were selected, with the notice shown both
    times), so the images that would go to the blend editor are the same;
    an id that was not selected leaves the selection exactly as it was. *)
Theorem X22_toggle_twice_restores_selection
    (id : JsString) (st : AppState) (w : World) :
  JsSet.size (selectedIds st) ≤ 4 →
  let r1 := toggleSelection id st w in
  let r2 := toggleSelection id r1.1 r1.2 in
  (∀ y, JsSet.has y (selectedIds r2.1) = JsSet.has y (selectedIds st)) ∧
  selectedImagesList (images r2.1) (selectedIds r2.1) =
    selectedImagesList (images st) (selectedIds st) ∧
  (JsSet.has id (selectedIds st) = false → r2.1 = st) ∧
  (alerts r2.2 = alerts w ∨
   alerts r2.2 = alerts w ++ [limitNotice; limitNotice]).
Proof.
  intros Hsize r1 r2.
  assert (images r2.1 = images st ∧
          (∀ y, y ∈ selectedIds r2.1 ↔ y ∈ selectedIds st) ∧
          (JsSet.has id (selectedIds st) = false → r2.1 = st) ∧
          (alerts r2.2 = alerts w ∨
           alerts r2.2 = alerts w ++ [limitNotice; limitNotice]))
    as (Himgs & Hmem & Hsame & Halerts).
  { subst r1 r2.
    destruct (toggleSelection_cases id st w)
      as [[Hhas ->]|[(Hhas & Hfull & ->)|(Hhas & Hroom & ->)]]; cbn [fst snd].
    - (* selected: removed, then added again *)
      assert (JsSet.has id (JsSet.delete id (selectedIds st)) = false) as Hgone.
      { apply has_false. rewrite elem_of_delete. tauto. }
      destruct (toggleSelection_cases id
                  (setSelectedIds (JsSet.delete id (selectedIds st)) st) w)
        as [[Hyes _]|[(_ & Hfull & _)|(_ & _ & ->)]]; simpl in *.
      + congruence.
      + pose proof (size_delete id (selectedIds st)).
        apply has_true in Hhas.
        assert (JsSet.size (JsSet.delete id (selectedIds st))
                  < JsSet.size (selectedIds st)); [|lia].
        unfold JsSet.size, JsSet.delete.
        eapply length_filter_lt; [exact Hhas | by intros ?].
      + split_and!; [done | | congruence | by left].
        intros y. rewrite elem_of_add, elem_of_delete. apply has_true in Hhas.
        destruct (decide (y = id)) as [->|]; tauto.
    - (* not selected, four selected: rejected twice *)
      destruct (toggleSelection_cases id st (alert limitNotice w).2)
        as [[Hyes _]|[(_ & _ & ->)|(_ & Hroom & _)]]; [congruence| |lia].
      simpl. split_and!; [done | done | done |]. right.
      by rewrite <- app_assoc.
    - (* not selected, room left: added, then removed *)
      assert (JsSet.has id (JsSet.add id (selectedIds st)) = true) as Hin.
      { apply has_true. rewrite elem_of_add. tauto. }
      destruct (toggleSelection_cases id
                  (setSelectedIds (JsSet.add id (selectedIds st)) st) w)
        as [[_ ->]|[(Hno & _)|(Hno & _)]]; simpl in *; [|congruence..].
      assert (JsSet.delete id (JsSet.add id (selectedIds st)) = selectedIds st)
        as Hback.
      { unfold JsSet.add. rewrite Hhas. unfold JsSet.delete.
        rewrite filter_app, filter_cons, decide_False by (by intros ?).
        rewrite filter_nil, app_nil_r. apply has_false in Hhas.
        by apply delete_absent. }
      rewrite Hback. split_and!; [done | done | | by left].
      intros _. clear. by destruct st. }
  split_and!; [|  | done | done].
  - intros y. by apply has_ext.
  - rewrite Himgs. rewrite !selectedImagesList_filter.
    apply list_filter_iff. intros img. apply Hmem.
Qed.

Lemma X22_witness :
  (toggleSelection (js "img5")
     (toggleSelection (js "img5") fourSelected world0).1
     (toggleSelection (js "img5") fourSelected world0).2).1 = fourSelected.
Proof.
  apply (X22_toggle_twice_restores_selection (js "img5") fourSelected world0).
  - vm_compute. lia.
  - reflexivity.
Defined.

Lemma step_FileLoaded fileName c r st w :
  step (FileLoaded fileName (Some (c :: r))) st w =
    (mkApp (images st ++
              [ImageItem.mk (randomIds w (randomCalls w)) (c :: r) (c :: r)
                 fileName [] false])
       (editingId st) (isSelectionMode st) (selectedIds st)
       (showMultiEditor st),
     mkWorld (randomIds w) (S (randomCalls w)) (clock w) (clockCalls w)
       (toLocaleTimeString w) (alerts w)).
Proof. reflexivity. Qed.

Lemma run_uploads (files : list (JsString * JsString)) st w :
  Forall (λ f, f.2 ≠ []) files →
  run_events ((λ f, FileLoaded f.1 (Some f.2)) <$> files) (st, w) =
    (mkApp (images st ++
              imap (λ k f, ImageItem.mk (randomIds w (randomCalls w + k))
                             f.2 f.2 f.1 [] false) files)
       (editingId st) (isSelectionMode st) (selectedIds st)
       (showMultiEditor st),
     mkWorld (randomIds w) (randomCalls w + length files) (clock w)
       (clockCalls w) (toLocaleTimeString w) (alerts w)).
Proof.
  intros Hfiles. revert st w.
  induction Hfiles as [|[fileName content] files Hne _ IH]; intros st w.
  - simpl. rewrite app_nil_r, Nat.add_0_r. by destruct st, w.
  - simpl in Hne. destruct content as [|c content]; [done|].
    cbn [fmap list_fmap run_events foldl fst snd].
    rewrite step_FileLoaded. unfold run_events in IH. rewrite IH. simpl.
    f_equal; [f_equal|f_equal; lia].
    rewrite <- app_assoc. f_equal. simpl. rewrite Nat.add_0_r. f_equal.
    apply imap_ext. intros k f _. simpl. do 2 f_equal. lia.
Qed.

(** X23. Uploads.  A file whose reader result is [null] or the empty string
    is ignored: state and browser are as before.  Files with content are
    appended at the end of the gallery in the order in which they finish
    loading, each as a new image named after its file, with the loaded
    content as original and current content, no version, and the next id
    drawn from the browser; the images already there, the selection, the
    modes and the alerts are untouched. *)
Theorem X23_uploads_append_in_load_order
    (files : list (JsString * JsString)) (st : AppState) (w : World) :
  Forall (λ f, f.2 ≠ []) files →
  let r :=
    run_events ((λ f, FileLoaded f.1 (Some f.2)) <$> files) (st, w) in
  images r.1 =
    images st ++
    imap (λ k f, ImageItem.mk (randomIds w (randomCalls w + k)) f.2 f.2 f.1
                   [] false) files ∧
  editingId r.1 = editingId st ∧
  isSelectionMode r.1 = isSelectionMode st ∧
  selectedIds r.1 = selectedIds st ∧
  showMultiEditor r.1 = showMultiEditor st ∧
  randomCalls r.2 = randomCalls w + length files ∧
  alerts r.2 = alerts w ∧
  (∀ fileName, step (FileLoaded fileName None) st w = (st, w) ∧
               step (FileLoaded fileName (Some [])) st w = (st, w)).
Proof.
  intros Hfiles r. subst r. rewrite run_uploads by done. simpl.
  split_and!; try done. intros fileName. by destruct st.
Qed.

Lemma X23_witness :
  images
    (run_events
       ((λ f, FileLoaded f.1 (Some f.2)) <$>
          [(js "a.png", js "A"); (js "b.png", js "P")]) (initialApp, world0)).1
  = [] ++ [ImageItem.mk (js "v0") (js "A") (js "A") (js "a.png") [] false;
           ImageItem.mk (js "v1") (js "P") (js "P") (js "b.png") [] false].
Proof.
  apply (X23_uploads_append_in_load_order
           [(js "a.png", js "A"); (js "b.png", js "P")] initialApp world0).
  repeat (apply Forall_cons; split; [discriminate|]). apply Forall_nil_2.
Defined.

(** ** The editor and its image *)

Lemma find_by_id_updated id newUrl prompt eid prev next img :
  Forall2 (updated id newUrl prompt) prev next →
  List.find (λ x, bool_decide (ImageItem.id x = eid)) prev = Some img →
  ∃ img', List.find (λ x, bool_decide (ImageItem.id x = eid)) next = Some img' ∧
          updated id newUrl prompt img img'.
Proof.
  induction 1 as [|x y l l' Hxy _ IH]; simpl; [done|].
  rewrite (updated_id _ _ _ _ _ Hxy).
  destruct (bool_decide (ImageItem.id x = eid)).
  - intros [= <-]. by exists y.
  - apply IH.
Qed.

(** X24. The editor stays on its image.  While the editor shows an image,
    an update of the collection (its own generate or revert, or a request
    of another image that resolves late) leaves the editor open on the
    image with the same id, original content and name, whose earlier
    versions are still there; if the update carries the image's id, the
    image now has the new content, as current content and as last version;
    otherwise the image is exactly as before. *)
Theorem X24_editor_stays_on_its_image
    (st : AppState) (image : ImageItem.t) (id newUrl prompt : JsString)
    (w : World) :
  render st = EditorView image →
  ∃ image',
    render (step (UpdateImage id newUrl prompt) st w).1 = EditorView image' ∧
    ImageItem.id image' = ImageItem.id image ∧
    ImageItem.originalUrl image' = ImageItem.originalUrl image ∧
    ImageItem.name image' = ImageItem.name image ∧
    ImageItem.versions image `prefix_of` ImageItem.versions image' ∧
    (ImageItem.id image = id →
     ImageItem.currentUrl image' = newUrl ∧
     ∃ v, ImageItem.versions image' = ImageItem.versions image ++ [v] ∧
          EditedVersion.url v = newUrl ∧ EditedVersion.prompt v = prompt) ∧
    (ImageItem.id image ≠ id → image' = image).
Proof.
  intros (Hshow & Htr & Hact)%render_editor.
  destruct (setImages_frame (handleUpdateImage id newUrl prompt) st w)
    as (Himgs & Hed & Hm & Hs & Hsh).
  unfold activeImage in Hact.
  destruct (editingId st) as [eid|] eqn:Heid; [|done].
  destruct (find_by_id_updated id newUrl prompt eid _ _ image
              (handleUpdateImage_updated id newUrl prompt (images st) w) Hact)
    as (image' & Hfind & Hupd).
  exists image'. split.
  - unfold render, activeImage. simpl step. rewrite Hsh, Hshow, Hed, Himgs.
    rewrite Hfind. by rewrite Htr.
  - destruct (updated_frame _ _ _ _ _ Hupd) as (? & ? & ? & _ & ? & ?).
    split_and!; try done.
    intros Hid. unfold updated in Hupd. rewrite decide_True in Hupd by done.
    destruct Hupd as (v & Hu & Hp & ->). simpl. split; [done|]. by exists v.
Qed.

Lemma X24_witness :
  ∃ image',
    render (step (UpdateImage (js "v0") (js "B") (js "make it sketch"))
              (run_events editSession (initialApp, world0)).1 world0).1
      = EditorView image' ∧
    ImageItem.id image' = js "v0" ∧
    ImageItem.originalUrl image' = js "A" ∧
    ImageItem.name image' = js "a.png" ∧
    [] `prefix_of` ImageItem.versions image' ∧
    (js "v0" = js "v0" →
     ImageItem.currentUrl image' = js "B" ∧
     ∃ v, ImageItem.versions image' = [] ++ [v] ∧
          EditedVersion.url v = js "B" ∧
          EditedVersion.prompt v = js "make it sketch") ∧
    (js "v0" ≠ js "v0" → image' =
       ImageItem.mk (js "v0") (js "A") (js "A") (js "a.png") [] false).
Proof.
  apply (X24_editor_stays_on_its_image
           (run_events editSession (initialApp, world0)).1
           (ImageItem.mk (js "v0") (js "A") (js "A") (js "a.png") [] false)
           (js "v0") (js "B") (js "make it sketch") world0).
  reflexivity.
Defined.

(** X25. Only [removeImage] takes anything away from the collection: after
    any other event every image of the collection is still there, with its
    id, original content and name, and with all the versions it had, in
    place. *)
Theorem X25_history_is_append_only (ev : Event) (st : AppState) (w : World) :
  (∀ id, ev ≠ RemoveImage id) →
  ∀ img, img ∈ images st →
    ∃ img', img' ∈ images (step ev st w).1 ∧
      ImageItem.id img' = ImageItem.id img ∧
      ImageItem.originalUrl img' = ImageItem.originalUrl img ∧
      ImageItem.name img' = ImageItem.name img ∧
      ImageItem.versions img `prefix_of` ImageItem.versions img' ∧
      length (ImageItem.versions img) ≤ length (ImageItem.versions img').
Proof.
  intros Hev img Hin.
  assert (img ∈ images (step ev st w).1 →
          ∃ img', img' ∈ images (step ev st w).1 ∧
            ImageItem.id img' = ImageItem.id img ∧
            ImageItem.originalUrl img' = ImageItem.originalUrl img ∧
            ImageItem.name img' = ImageItem.name img ∧
            ImageItem.versions img `prefix_of` ImageItem.versions img' ∧
            length (ImageItem.versions img) ≤ length (ImageItem.versions img'))
    as Hsame.
  { intros Hin'. exists img. split_and!; done. }
  destruct ev; simpl in *.
  - apply Hsame.
    destruct (setImages_frame (onFileLoad fileName result) st w) as (-> & _).
    destruct (onFileLoad_spec fileName result (images st) w)
      as [->|(r & newId & _ & _ & ->)]; [done|].
    apply elem_of_app. by left.
  - clear Hsame.
    destruct (setImages_frame (handleUpdateImage id newUrl prompt) st w)
      as (-> & _).
    apply list_elem_of_lookup in Hin as [i Hi].
    destruct (handleUpdateImage_lookup id newUrl prompt (images st) w i img Hi)
      as (img' & Hi' & Hupd).
    destruct (updated_frame _ _ _ _ _ Hupd) as (? & ? & ? & _ & Hpre & _).
    exists img'. split_and!; try done.
    + by eapply list_elem_of_lookup_2.
    + by apply prefix_length.
  - apply Hsame. by right.
  - by destruct (Hev id).
  - apply Hsame. unfold toggleSelectionMode. by destruct (isSelectionMode st).
  - apply Hsame. unfold handleClick. destruct (isSelectionMode st); [|done].
    by destruct (toggleSelection_frame id st w) as (-> & _).
  - by apply Hsame.
  - by apply Hsame.
  - by apply Hsame.
Qed.

Lemma X25_witness :
  ∃ img', img' ∈ images (step (UpdateImage (js "img2") (js "B") (js "blur"))
                           fourSelected world0).1 ∧
    ImageItem.id img' = ImageItem.id imgB ∧
    ImageItem.originalUrl img' = ImageItem.originalUrl imgB ∧
    ImageItem.name img' = ImageItem.name imgB ∧
    ImageItem.versions imgB `prefix_of` ImageItem.versions img' ∧
    length (ImageItem.versions imgB) ≤ length (ImageItem.versions img').
Proof.
  apply (X25_history_is_append_only (UpdateImage (js "img2") (js "B") (js "blur"))
           fourSelected world0).
  - intros id. discriminate.
  - apply list_elem_of_further, list_elem_of_here.
Defined.
